(** * gosessions: server-side sessions for the Twister web framework

    A shallow embedding of [session.go] and proofs about it.

    The Go code works on pointers to [Session] objects that are shared
    between the in-memory store, the request environment and the
    handlers, so the embedding keeps an explicit heap of [Session]
    objects and a store that maps identifiers to heap locations.  The
    clock ([time.Seconds]) and the entropy device ([/dev/urandom]) are
    oracles of the world: each call consumes the next reading.  A Go
    panic is an explicit outcome. *)

From Stdlib Require Import ZArith Ascii String List Lia.
From stdpp Require Import base option list gmap fin_maps strings.

Local Open Scope Z_scope.

(** ** Constants of [session.go] *)

Definition sessionCookieName : string := "twisterSess".
Definition sessionValidSeconds : Z := 1440.
Definition sessionSweepSeconds : Z := 600 * 1000000000.

(** Go's [int64]: the result of an addition is reduced to the signed
    64-bit range. *)
Definition wrap64 (z : Z) : Z := (z + 2 ^ 63) `mod` 2 ^ 64 - 2 ^ 63.

Definition int64_add (a b : Z) : Z := wrap64 (a + b).

(** ** Values held in an [interface{}]

    The fragment of Go's dynamic values that the session code meets:
    the nil interface, booleans, integers, floats (as their 64-bit IEEE
    pattern, never inspected), strings, pointers to [Session] objects,
    pointers to variables (the destinations handed to [Get]) and
    [Session] structs held by value (a copy [*p] of a session, as
    [Set(req, k, *p)] stores it).  The types are the predeclared [bool],
    [int], [float64] and [string], the empty interface, the struct
    [Session] and pointers to these; user-named types and interfaces
    with methods are outside the fragment. *)

Set Warnings "-register-all".

Abbreviation loc := positive.

Inductive type :=
  | TBool
  | TInt
  | TFloat64
  | TString
  | TInterface          (* interface{} *)
  | TSession            (* the struct Session *)
  | TPtr (t : type).

Inductive value :=
  | VNil
  | VBool (b : bool)
  | VInt (n : Z)
  | VFloat64 (bits : Z)
  | VString (s : string)
  | VSession (p : loc)              (* a *Session *)
  | VPtr (t : type) (p : loc)       (* a *T pointing at a variable of type T *)
  | VSessionValue (d : gmap string value) (i : string) (ts : Z).
                                    (* a Session struct: data, id, timestamp *)

Global Instance type_eq_dec : EqDecision type.
Proof. solve_decision. Defined.

(** The dynamic type of a value; the nil interface has none. *)
Definition type_of (v : value) : option type :=
  match v with
  | VNil => None
  | VBool _ => Some TBool
  | VInt _ => Some TInt
  | VFloat64 _ => Some TFloat64
  | VString _ => Some TString
  | VSession _ => Some (TPtr TSession)
  | VPtr t _ => Some (TPtr t)
  | VSessionValue _ _ _ => Some TSession
  end.


(** ** Sessions, requests and the world *)

(** [type Session struct { data map[string]interface{}; id string;
    timestamp int64 }].  The [data] map is kept inside the object: the
    package never reassigns the field, and a session made by
    [NewSession] owns its map.  A copy of a session carries the data by
    value, so that a session and a copy of it share one map in Go is not
    tracked. *)
Record Session := mkSession {
  data : gmap string value;
  id : string;
  timestamp : Z
}.

(** The part of Twister's [web.Request] the package touches:
    [Cookie] (a [web.Values], names to lists of values) and [Env]. *)
Record Request := mkRequest {
  Cookie : gmap string (list string);
  Env : gmap string value
}.

(** What one open-and-read of [/dev/urandom] can do.  [ReadBytes bs]: the
    read succeeds and delivers [bs] (at most the 16 bytes asked for are
    taken). *)
Inductive Entropy :=
  | OpenFails
  | ReadFails
  | ReadBytes (bs : list Byte.byte).

Record World := mkWorld {
  sessions : gmap loc Session;     (* heap of Session objects *)
  vars : gmap loc value;           (* heap of variables *)
  store : gmap string loc;         (* memoryStore.store *)
  clock : nat → Z;                 (* successive results of time.Seconds() *)
  urandom : nat → Entropy;         (* successive uses of /dev/urandom *)
  logged : list (nat * nat)        (* what Sweep printed: total, deleted *)
}.

Definition set_sessions (h : gmap loc Session) (w : World) : World :=
  mkWorld h (vars w) (store w) (clock w) (urandom w) (logged w).
Definition set_vars (h : gmap loc value) (w : World) : World :=
  mkWorld (sessions w) h (store w) (clock w) (urandom w) (logged w).
Definition set_store (m : gmap string loc) (w : World) : World :=
  mkWorld (sessions w) (vars w) m (clock w) (urandom w) (logged w).
Definition set_clock (c : nat → Z) (w : World) : World :=
  mkWorld (sessions w) (vars w) (store w) c (urandom w) (logged w).
Definition set_urandom (u : nat → Entropy) (w : World) : World :=
  mkWorld (sessions w) (vars w) (store w) (clock w) u (logged w).
Definition set_logged (l : list (nat * nat)) (w : World) : World :=
  mkWorld (sessions w) (vars w) (store w) (clock w) (urandom w) l.

(** ** A monad for state and panics *)

Inductive result (A : Type) :=
  | Ok (a : A)
  | Panic (msg : string).
Arguments Ok {A} a.
Arguments Panic {A} msg.

Definition M (A : Type) : Type := World → result A * World.

Definition pure {A} (a : A) : M A := λ w, (Ok a, w).

Definition bind {A B} (m : M A) (f : A → M B) : M B :=
  λ w, match m w with
       | (Ok a, w') => f a w'
       | (Panic msg, w') => (Panic msg, w')
       end.

Definition panic {A} (msg : string) : M A := λ w, (Panic msg, w).

Declare Scope go_scope.
Delimit Scope go_scope with go.
Notation "'let!' x ':=' m 'in' k" := (bind m (λ x, k))
  (at level 10, x pattern, m at level 100, k at level 200) : go_scope.
Local Open Scope go_scope.

(** *** Primitive effects *)

(** [time.Seconds()] *)
Definition time_Seconds : M Z :=
  λ w, (Ok (clock w 0%nat), set_clock (λ n, clock w (S n)) w).

(** One use of the entropy device. *)
Definition read_urandom : M Entropy :=
  λ w, (Ok (urandom w 0%nat), set_urandom (λ n, urandom w (S n)) w).

(** [*p] for a [*Session]; a pointer at no object is the nil pointer. *)
Definition deref (p : loc) : M Session :=
  λ w, match sessions w !! p with
       | Some s => (Ok s, w)
       | None => (Panic "nil pointer dereference", w)
       end.

(** Write through a [*Session] known to point at an object. *)
Definition write_session (p : loc) (s : Session) : M unit :=
  λ w, (Ok tt, set_sessions (<[p := s]> (sessions w)) w).

(** [&Session{...}]: a new object at an unused location. *)
Definition alloc_session (s : Session) : M loc :=
  λ w, let p := fresh (dom (sessions w)) in
       (Ok p, set_sessions (<[p := s]> (sessions w)) w).

Definition write_var (p : loc) (v : value) : M unit :=
  λ w, (Ok tt, set_vars (<[p := v]> (vars w)) w).

Definition store_lookup (k : string) : M (option loc) :=
  λ w, (Ok (store w !! k), w).

Definition store_insert (k : string) (p : loc) : M unit :=
  λ w, (Ok tt, set_store (<[k := p]> (store w)) w).

Definition store_delete (k : string) : M unit :=
  λ w, (Ok tt, set_store (delete k (store w)) w).

(** ** Identifier generation *)

(** [%x] on one byte: two lower-case hexadecimal digits. *)
Definition hex_digit (n : N) : ascii :=
  match n with
  | 0 => "0" | 1 => "1" | 2 => "2" | 3 => "3" | 4 => "4" | 5 => "5"
  | 6 => "6" | 7 => "7" | 8 => "8" | 9 => "9" | 10 => "a" | 11 => "b"
  | 12 => "c" | 13 => "d" | 14 => "e" | _ => "f"
  end%N%char.

Definition hex_byte (b : Byte.byte) : string :=
  let n := Byte.to_N b in
  String (hex_digit (n / 16)) (String (hex_digit (n mod 16)) EmptyString).

(** [fmt.Sprintf("%x", bs)] for a byte slice. *)
Fixpoint hex (bs : list Byte.byte) : string :=
  match bs with
  | [] => EmptyString
  | b :: bs' => hex_byte b +:+ hex bs'
  end.

(** [b[lo:hi]] *)
Definition slice (b : list Byte.byte) (lo hi : nat) : list Byte.byte :=
  take (hi - lo) (drop lo b).

(** [b := make([]byte, 16); f.Read(b)]: the buffer starts zeroed and the
    read overwrites its first bytes with what the device delivered. *)
Definition read_buffer (bs : list Byte.byte) : list Byte.byte :=
  take 16 (bs ++ replicate 16 Byte.x00).

(** [fmt.Sprintf("%x-%x-%x-%x-%x", b[0:4], b[4:6], b[6:8], b[8:10], b[10:])] *)
Definition uuid_format (b : list Byte.byte) : string :=
  hex (slice b 0 4) +:+ "-" +:+ hex (slice b 4 6) +:+ "-" +:+
  hex (slice b 6 8) +:+ "-" +:+ hex (slice b 8 10) +:+ "-" +:+
  hex (drop 10 b).

(** What [uuid] returns for each behaviour of the device.  [f.Close()]
    is deferred before the error check; on a nil file it returns an
    error that is dropped. *)
Definition uuid_of (e : Entropy) : string :=
  match e with
  | OpenFails => ""
  | ReadFails => ""
  | ReadBytes bs => uuid_format (read_buffer bs)
  end.

Definition uuid : M string :=
  let! e := read_urandom in
  pure (uuid_of e).

(** ** The in-memory store *)

(** Twister's [Values.Get]: the first value under the key, or the empty
    string when there is none. *)
Definition Values_Get (m : gmap string (list string)) (key : string) : string :=
  match m !! key with
  | Some (v :: _) => v
  | _ => ""
  end.

Definition NewSession : M loc :=
  let! i := uuid in
  let! t := time_Seconds in
  alloc_session (mkSession ∅ i t).

Definition memoryStore_Load (req : Request) : M loc :=
  let val := Values_Get (Cookie req) sessionCookieName in
  let! found := store_lookup val in
  match found with
  | Some sess => pure sess
  | None => NewSession
  end.

Definition memoryStore_Save (req : Request) (sess : loc) : M bool :=
  let! t := time_Seconds in
  let! s := deref sess in
  let! _ := write_session sess (mkSession (data s) (id s) t) in
  let! _ := store_insert (id s) sess in
  pure true.

(** The test of the sweep loop:
    [sess.timestamp + sessionValidSeconds < time.Seconds()]. *)
Definition expired (ts now : Z) : bool :=
  int64_add ts sessionValidSeconds <? now.

(** The body of [for k, sess := range s.store]; the result says whether
    the entry was deleted. *)
Definition sweep_entry (k : string) (sess : loc) : M bool :=
  let! s := deref sess in
  let! now := time_Seconds in
  if expired (timestamp s) now
  then let! _ := store_delete k in pure true
  else pure false.

(** The range loop over the entries, counting deletions in [i].  Only the
    entry being visited is ever deleted, so every entry present at the
    start is visited once. *)
Fixpoint sweep_range (es : list (string * loc)) (i : nat) : M nat :=
  match es with
  | [] => pure i
  | (k, sess) :: es' =>
      let! deleted := sweep_entry k sess in
      sweep_range es' (if deleted then S i else i)
  end.

Definition log_Printf (l i : nat) : M unit :=
  λ w, (Ok tt, set_logged (logged w ++ [(l, i)]) w).

(** One turn of the outer [for] of [Sweep]; returns what it logs: the
    number of sessions at the start and the number deleted.  The elapsed
    time it also prints, from [time.Nanoseconds], is left out. *)
Definition sweep_pass : M (nat * nat) :=
  λ w,
    let l := size (store w) in
    (let! i := sweep_range (map_to_list (store w)) 0 in
     let! _ := log_Printf l i in
     pure (l, i)) w.

(** [Sweep] never returns; [n] bounds the number of turns observed.
    [time.Sleep] changes nothing in the world: the clock is read from the
    oracle. *)
Fixpoint memoryStore_Sweep (n : nat) : M unit :=
  match n with
  | O => pure tt
  | S n' => let! _ := sweep_pass in memoryStore_Sweep n'
  end.

(** ** The typed accessors *)

(** The type assertion of [req.Env["session"]] to a pointer to [Session],
    with its [ok]. *)
Definition env_session (req : Request) : option loc :=
  match Env req !! "session" with
  | Some (VSession p) => Some p
  | _ => None
  end.

(** *** The part of package [reflect] that [Get] calls

    An addressable [reflect.Value]: what [Elem] yields for a pointer that
    points at something. *)
Inductive place :=
  | PVar (t : type) (p : loc)       (* a variable of type t *)
  | PSession (p : loc).             (* a Session struct *)

(** [reflect.ValueOf(ret).Elem()].  [None] is the zero [reflect.Value],
    the result for a nil pointer; [Elem] panics on anything that is not
    a pointer. *)
Definition reflect_Elem (ret : value) : M (option place) :=
  match ret with
  | VPtr t p =>
      λ w, (Ok (match vars w !! p with
                | Some _ => Some (PVar t p)
                | None => None
                end), w)
  | VSession p =>
      λ w, (Ok (match sessions w !! p with
                | Some _ => Some (PSession p)
                | None => None
                end), w)
  | VNil => panic "reflect: call of reflect.Value.Elem on zero Value"
  | _ => panic "reflect: call of reflect.Value.Elem on non-pointer Value"
  end.

(** [CanSet]: true for an addressable value, false for the zero one. *)
Definition reflect_CanSet (e : option place) : bool :=
  match e with
  | Some _ => true
  | None => false
  end.

(** Go's assignability between the types of the fragment: identical
    types, or any type to [interface{}].  The two other cases of Go's
    rule, a value that implements an interface with methods and two types
    over one underlying type of which one is unnamed, need types the
    fragment does not have. *)
Definition assignable (tx t : type) : bool :=
  bool_decide (tx = t) || bool_decide (t = TInterface).

(** [dst.Set(reflect.ValueOf(x))]: panics when [dst] is not settable, when
    [x] is the nil interface and when the type of [x] is not assignable
    to the type of [dst].  A [Session] struct is the one kind of value
    assignable to a [PSession]: the assignment replaces the whole object,
    data, identifier and timestamp.  (The copy carries its data by value;
    that in Go the two structs then share one map is not tracked.) *)
Definition reflect_Set (dst : option place) (x : value) : M unit :=
  match dst, type_of x with
  | None, _ => panic "reflect: call of reflect.Value.Set on zero Value"
  | Some _, None => panic "reflect: call of reflect.Value.Set on zero Value"
  | Some (PVar t p), Some tx =>
      if assignable tx t then write_var p x
      else panic "reflect.Set: value is not assignable to type"
  | Some (PSession p), Some tx =>
      match x with
      | VSessionValue d i ts => write_session p (mkSession d i ts)
      | _ => panic "reflect.Set: value is not assignable to type"
      end
  end.

Definition session_Get (req : Request) (key : string) (ret : value) : M unit :=
  match env_session req with
  | None => pure tt
  | Some sess =>
      let! s := deref sess in
      match data s !! key with
      | None => pure tt
      | Some val =>
          let! rv_elem := reflect_Elem ret in
          if reflect_CanSet rv_elem then reflect_Set rv_elem val
          else pure tt
      end
  end.

Definition session_Set (req : Request) (key : string) (v : value) : M bool :=
  match env_session req with
  | None => pure false
  | Some sess =>
      let! s := deref sess in
      let! _ := write_session sess
                  (mkSession (<[key := v]> (data s)) (id s) (timestamp s)) in
      pure true
  end.

(** ** The middleware *)

(** [type SessionManager interface { Load; Save; Sweep }] *)
Record SessionManager := mkSessionManager {
  Load : Request → M loc;
  Save : Request → loc → M bool;
  Sweep : nat → M unit
}.

Definition memoryStore : SessionManager :=
  mkSessionManager memoryStore_Load memoryStore_Save memoryStore_Sweep.

(** [MemoryStore()]: a manager over an empty map.  The sweeper it starts
    with [go ms.Sweep()] runs beside the requests; its passes appear in
    the model only as explicit [sweep_pass] steps. *)
Definition MemoryStore : M SessionManager :=
  λ w, (Ok memoryStore, set_store ∅ w).

(** Twister's [web.Header], names to lists of values, and its [Add]. *)
Definition Header_Add (key v : string) (h : gmap string (list string))
  : gmap string (list string) :=
  <[key := default [] (h !! key) ++ [v]]> h.

Definition HeaderSetCookie : string := "Set-Cookie".

(** A downstream [web.Handler]: it may change the request environment and
    the world, and it hands a status and a header to [Respond], or never
    responds. *)
Definition Handler : Type :=
  Request → M (Request * option (Z * gmap string (list string))).

Record sessionHandler := mkSessionHandler {
  h : Handler;
  manager : SessionManager
}.

Definition SessionHandler (manager : SessionManager) (h : Handler) : sessionHandler :=
  mkSessionHandler h manager.

Section Middleware.

(** [web.NewCookie(name, value).String()], Twister's rendering of a
    cookie. *)
Variable NewCookie_String : string → string → string.

(** The function passed to [web.FilterRespond]. *)
Definition respond_filter (sh : sessionHandler) (req : Request)
    (status : Z) (header : gmap string (list string))
  : M (Z * gmap string (list string)) :=
  match env_session req with
  | None => pure (status, header)
  | Some sess =>
      let! _ := Save (manager sh) req sess in
      let! s := deref sess in
      let c := NewCookie_String sessionCookieName (id s) in
      pure (status, Header_Add HeaderSetCookie c header)
  end.

(** [ServeWeb]: the filter runs on the arguments of the downstream
    handler's [Respond], with the environment as it is then. *)
Definition ServeWeb (sh : sessionHandler) (req : Request)
  : M (Request * option (Z * gmap string (list string))) :=
  let! sess := Load (manager sh) req in
  let req1 := mkRequest (Cookie req) (<["session" := VSession sess]> (Env req)) in
  let! (req2, responded) := h sh req1 in
  match responded with
  | None => pure (req2, None)
  | Some (status, header) =>
      let! r := respond_filter sh req2 status header in
      pure (req2, Some r)
  end.

End Middleware.

(** ** Sequences of operations on the store and the accessors *)

Inductive op :=
  | OpLoad (req : Request)
  | OpSave (req : Request) (sess : loc)
  | OpSweep
  | OpGet (req : Request) (key : string) (ret : value)
  | OpSet (req : Request) (key : string) (v : value).

Definition void {A} (m : M A) : M unit := let! _ := m in pure tt.

Definition exec (o : op) : M unit :=
  match o with
  | OpLoad req => void (memoryStore_Load req)
  | OpSave req sess => void (memoryStore_Save req sess)
  | OpSweep => void sweep_pass
  | OpGet req key ret => session_Get req key ret
  | OpSet req key v => void (session_Set req key v)
  end.

(** The world after a sequence of operations.  An operation that panics
    stops where it is; the next one runs in the world it left. *)
Fixpoint run (os : list op) (w : World) : World :=
  match os with
  | [] => w
  | o :: os' => run os' (snd (exec o w))
  end.

(** ** Reading an identifier back

    The inverse of the formatting, used to state what [uuid] produces:
    cut a string at a separator, and read a string of hexadecimal digit
    pairs as bytes. *)

Fixpoint split_on (c : ascii) (s : string) : list string :=
  match s with
  | EmptyString => [EmptyString]
  | String a s' =>
      if Ascii.eqb a c then EmptyString :: split_on c s'
      else match split_on c s' with
           | g :: gs => String a g :: gs
           | [] => [String a EmptyString]
           end
  end.

Definition hex_value (a : ascii) : option N :=
  let n := N_of_ascii a in
  if ((48 <=? n) && (n <=? 57))%N then Some (n - 48)%N
  else if ((97 <=? n) && (n <=? 102))%N then Some (n - 87)%N
  else None.

Fixpoint hex_decode (s : string) : option (list Byte.byte) :=
  match s with
  | EmptyString => Some []
  | String a (String b s') =>
      match hex_value a, hex_value b, hex_decode s' with
      | Some hi, Some lo, Some rest =>
          match Byte.of_N (16 * hi + lo) with
          | Some x => Some (x :: rest)
          | None => None
          end
      | _, _, _ => None
      end
  | String _ EmptyString => None
  end.

(** The byte groups of an identifier: cut at the hyphens, each part read
    as hexadecimal. *)
Definition uuid_groups (s : string) : option (list (list Byte.byte)) :=
  mapM hex_decode (split_on "-" s).

Fixpoint has_char (c : ascii) (s : string) : bool :=
  match s with
  | EmptyString => false
  | String a s' => Ascii.eqb a c || has_char c s'
  end.

(** ** Statements and sample worlds

    Predicates used to state the properties below, and the concrete
    worlds and requests on which they are exercised. *)

(** Every object the store points at exists. *)
Definition store_live (w : World) : Prop :=
  map_Forall (λ (_ : string) (p : loc), is_Some (sessions w !! p)) (store w).

(** [p] is a session that [w'] has and [w] had not, with no data and the
    identifier the entropy device gave. *)
Definition newly_constructed (w w' : World) (p : loc) : Prop :=
  sessions w !! p = None ∧
  ∃ s, sessions w' !! p = Some s ∧ data s = ∅ ∧
       id s = uuid_of (urandom w 0%nat).

(** [Load] as the specification words it: the stored session is returned
    only when its timestamp plus the validity window has not passed at
    the time of the lookup; an expired entry is answered like a missing
    one. *)
Definition Load_checks_expiry (w : World) (req : Request) (now : Z) : Prop :=
  ∃ p w', memoryStore_Load req w = (Ok p, w') ∧
    match store w !! Values_Get (Cookie req) sessionCookieName with
    | Some q =>
        match sessions w !! q with
        | Some s =>
            if timestamp s + sessionValidSeconds <? now
            then newly_constructed w w' p
            else p = q
        | None => True
        end
    | None => newly_constructed w w' p
    end.

(** A store holding one session saved at time 0, looked up at time 5000. *)
Definition stale_world : World :=
  mkWorld {[ 1%positive := mkSession ∅ "a" 0 ]} ∅ {[ "a" := 1%positive ]}
          (λ _, 5000) (λ _, ReadBytes []) [].

Definition stale_request : Request :=
  mkRequest {[ sessionCookieName := ["a"] ]} ∅.

(** The accessors, the operations of a request that never saves. *)
Definition accessor (o : op) : bool :=
  match o with
  | OpGet _ _ _ | OpSet _ _ _ => true
  | _ => false
  end.

(** A store with one live session and a request that carries no cookie. *)
Definition one_session_world : World :=
  mkWorld {[ 1%positive := mkSession ∅ "a" 100 ]} {[ 1%positive := VInt 7 ]}
          {[ "a" := 1%positive ]}
          (λ _, 2000) (λ _, ReadBytes []) [].

Definition bare_request : Request := mkRequest ∅ ∅.

(** A session created while the entropy device was failing. *)
Definition anonymous_world : World :=
  mkWorld {[ 1%positive := mkSession ∅ "" 100 ]} ∅ ∅
          (λ _, 2000) (λ _, OpenFails) [].

(** The entry points at a session whose timestamp plus the validity
    window is before [now]. *)
Definition entry_expired (w : World) (now : Z) (kp : string * loc) : Prop :=
  match sessions w !! kp.2 with
  | Some s => timestamp s + sessionValidSeconds < now
  | None => False
  end.

Global Instance entry_expired_dec w now kp : Decision (entry_expired w now kp).
Proof. unfold entry_expired. destruct (sessions w !! kp.2); apply _. Defined.

(** A timestamp read from the clock: an [int64] far enough from the top
    of its range for the window to be added. *)
Definition timestamp_ok (s : Session) : Prop :=
  - 2 ^ 63 ≤ timestamp s ∧ timestamp s + sessionValidSeconds < 2 ^ 63.

(** Every entry of the store points at a session with such a timestamp. *)
Definition sweepable (w : World) : Prop :=
  map_Forall (λ (_ : string) (p : loc),
                ∃ s, sessions w !! p = Some s ∧ timestamp_ok s) (store w).

(** Three sessions saved at times 100, 1000 and 500, swept at time 2000:
    the first and the last are older than 1440 seconds. *)
Definition sweep_world : World :=
  mkWorld {[ 1%positive := mkSession ∅ "a" 100;
             2%positive := mkSession ∅ "b" 1000;
             3%positive := mkSession ∅ "c" 500 ]}
          ∅
          {[ "a" := 1%positive; "b" := 2%positive; "c" := 3%positive ]}
          (λ _, 2000) (λ _, ReadBytes []) [].

(** A request bound to session 1 of [one_session_world]; variable 1 there
    is an [int] holding 7. *)
Definition bound_request : Request :=
  mkRequest ∅ {[ "session" := VSession 1%positive ]}.

(** A handler that records a hit in the session and answers 200 with an
    empty header, and a rendering of cookies as [name=value]. *)
Definition counting_handler : Handler :=
  λ req, let! _ := session_Set req "hits" (VInt 1) in
         pure (req, Some (200, ∅)).

Definition plain_cookie (name v : string) : string := name +:+ "=" +:+ v.

Definition first_request : Request :=
  mkRequest ∅ {[ "session" := VSession 2%positive ]}.

Definition loaded_world : World := snd (memoryStore_Load bare_request one_session_world).

Definition handled_world : World := snd (counting_handler first_request loaded_world).

(** The operation is a [Save] of session [p]. *)
Definition saves (p : loc) (o : op) : bool :=
  match o with
  | OpSave _ q => bool_decide (q = p)
  | _ => false
  end.

(** A request that presents cookie "a", on session 1 of
    [one_session_world]; the operations of two requests that save session
    1, and a sequence that saves only the session made by its [Load]. *)
Definition cookie_request : Request :=
  mkRequest {[ sessionCookieName := ["a"] ]} {[ "session" := VSession 1%positive ]}.

Definition two_requests : list op :=
  [ OpLoad cookie_request; OpSet cookie_request "n" (VInt 1);
    OpGet cookie_request "n" (VPtr TInt 1%positive); OpSweep;
    OpSave cookie_request 1%positive;
    OpLoad bare_request; OpGet cookie_request "n" (VPtr TString 1%positive) ].

Definition other_saved : list op :=
  [ OpLoad bare_request; OpSet cookie_request "n" (VInt 1);
    OpSave bare_request 2%positive; OpSweep;
    OpGet cookie_request "n" (VPtr TString 1%positive) ].

(** ** Further statements and sample worlds *)

(** The value is a pointer: the only destinations [reflect]'s [Elem]
    accepts. *)
Definition is_pointer (v : value) : bool :=
  match v with
  | VSession _ | VPtr _ _ => true
  | _ => false
  end.

(** Every entry of the store sits under the identifier of the session it
    points at. *)
Definition store_keyed (w : World) : Prop :=
  map_Forall (λ (k : string) (p : loc),
                ∃ s, sessions w !! p = Some s ∧ id s = k) (store w).

(** Session 1 holds a string under "k"; variable 1 is an [int], variable
    2 an [interface{}]. *)
Definition data_world : World :=
  mkWorld {[ 1%positive := mkSession {[ "k" := VString "hello" ]} "a" 100 ]}
          {[ 1%positive := VInt 7; 2%positive := VNil ]}
          {[ "a" := 1%positive ]}
          (λ _, 2000) (λ _, ReadBytes []) [].

(** A request whose environment slot holds something that is not a
    session. *)
Definition foreign_request : Request :=
  mkRequest ∅ {[ "session" := VString "not a session" ]}.


(** Two sessions that carry the same identifier. *)
Definition twin_world : World :=
  mkWorld {[ 1%positive := mkSession ∅ "a" 100;
             2%positive := mkSession {[ "k" := VInt 1 ]} "a" 200 ]}
          ∅ ∅ (λ _, 2000) (λ _, ReadBytes []) [].

(** The clock reads 1000 once and [then_] ever after. *)
Definition ticking_world (then_ : Z) : World :=
  mkWorld {[ 1%positive := mkSession ∅ "a" 100 ]} ∅ ∅
          (λ n, match n with O => 1000 | _ => then_ end)
          (λ _, ReadBytes []) [].

(** A session stamped at the very top of the [int64] range. *)
Definition latest_world : World :=
  mkWorld {[ 1%positive := mkSession ∅ "z" (2 ^ 63 - 1) ]} ∅
          {[ "z" := 1%positive ]}
          (λ _, 2000) (λ _, ReadBytes []) [].

(** The request that comes back with the cookie the first response set
    in [one_session_world], where the entropy device delivers no bytes. *)
Definition returning_request : Request :=
  mkRequest {[ sessionCookieName := ["00000000-0000-0000-0000-000000000000"] ]} ∅.

(** The destination is a pointer to a [Session]: the one kind of
    destination through which [Get] writes a session object. *)
Definition session_destination (ret : value) : bool :=
  match ret with
  | VSession _ => true
  | _ => false
  end.

(** The operation is a [Get] into a pointer to a [Session]. *)
Definition overwrites_session (o : op) : bool :=
  match o with
  | OpGet _ _ ret => session_destination ret
  | _ => false
  end.

(** Identifier and timestamp as the specification states them, for every
    sequence of operations: the session keeps its identifier, and keeps
    its timestamp unless the sequence has a [Save] of it. *)
Definition id_and_timestamp_kept (os : list op) (w : World) (p : loc) : Prop :=
  ∀ s, sessions w !! p = Some s →
    ∃ s', sessions (run os w) !! p = Some s' ∧ id s' = id s ∧
          (forallb (λ o, negb (saves p o)) os = true → timestamp s' = timestamp s).

(** Two sessions, each in the store under its identifier. *)
Definition two_session_world : World :=
  mkWorld {[ 1%positive := mkSession ∅ "a" 100;
             2%positive := mkSession ∅ "b" 200 ]}
          {[ 1%positive := VInt 7 ]}
          {[ "a" := 1%positive; "b" := 2%positive ]}
          (λ _, 2000) (λ _, ReadBytes []) [].

(** A handler stores a copy of session 2 under a key of session 1 and
    reads it back with session 1 itself as the destination. *)
Definition overwriting_ops : list op :=
  [ OpSet bound_request "k" (VSessionValue ∅ "b" 200);
    OpGet bound_request "k" (VSession 1%positive) ].

(** The predeclared types of the fragment. *)
Definition basic (t : type) : bool :=
  match t with
  | TBool | TInt | TFloat64 | TString => true
  | _ => false
  end.

(** * Proofs *)

(** ** Identifier generation *)

Lemma hex_decode_hex_byte (b : Byte.byte) (s : string) :
  hex_decode (hex_byte b +:+ s) =
  match hex_decode s with
  | Some rest => Some (b :: rest)
  | None => None
  end.
Proof. destruct b; reflexivity. Qed.

Lemma hex_decode_hex (bs : list Byte.byte) : hex_decode (hex bs) = Some bs.
Proof.
  induction bs as [|b bs IH]; [reflexivity|].
  change (hex (b :: bs)) with (hex_byte b +:+ hex bs).
  now rewrite hex_decode_hex_byte, IH.
Qed.

Lemma has_char_app (c : ascii) (s t : string) :
  has_char c (s +:+ t) = has_char c s || has_char c t.
Proof.
  induction s as [|a s IH]; simpl; [reflexivity|].
  now rewrite IH, orb_assoc.
Qed.

Lemma hex_byte_no_hyphen (b : Byte.byte) : has_char "-" (hex_byte b) = false.
Proof. destruct b; reflexivity. Qed.

Lemma hex_no_hyphen (bs : list Byte.byte) : has_char "-" (hex bs) = false.
Proof.
  induction bs as [|b bs IH]; [reflexivity|].
  change (hex (b :: bs)) with (hex_byte b +:+ hex bs).
  now rewrite has_char_app, hex_byte_no_hyphen, IH.
Qed.

Lemma split_on_last (c : ascii) (s : string) :
  has_char c s = false → split_on c s = [s].
Proof.
  induction s as [|a s IH]; simpl; [reflexivity|].
  intros [Ha Hs]%orb_false_elim. rewrite Ha, (IH Hs). reflexivity.
Qed.

Lemma split_on_group (c : ascii) (s t : string) :
  has_char c s = false →
  split_on c (s +:+ String c EmptyString +:+ t) = s :: split_on c t.
Proof.
  induction s as [|a s IH]; simpl.
  - intros _. now rewrite Ascii.eqb_refl.
  - intros [Ha Hs]%orb_false_elim. rewrite Ha, (IH Hs). reflexivity.
Qed.

Lemma uuid_groups_format (b : list Byte.byte) :
  uuid_groups (uuid_format b) =
  Some [slice b 0 4; slice b 4 6; slice b 6 8; slice b 8 10; drop 10 b].
Proof.
  unfold uuid_groups, uuid_format.
  rewrite !split_on_group by apply hex_no_hyphen.
  rewrite split_on_last by apply hex_no_hyphen.
  cbn [mapM]. rewrite !hex_decode_hex. reflexivity.
Qed.

Lemma read_buffer_length (bs : list Byte.byte) : length (read_buffer bs) = 16%nat.
Proof.
  unfold read_buffer. rewrite length_take, length_app, length_replicate. lia.
Qed.

Lemma slice_drop (b : list Byte.byte) (lo hi : nat) :
  (lo ≤ hi)%nat → slice b lo hi ++ drop hi b = drop lo b.
Proof.
  intros Hle. unfold slice.
  replace (drop hi b) with (drop (hi - lo) (drop lo b)).
  - apply take_drop.
  - rewrite drop_drop. f_equal. lia.
Qed.

Lemma read_buffer_slices (b : list Byte.byte) :
  slice b 0 4 ++ slice b 4 6 ++ slice b 6 8 ++ slice b 8 10 ++ drop 10 b = b.
Proof.
  rewrite (slice_drop b 8 10), (slice_drop b 6 8), (slice_drop b 4 6),
    (slice_drop b 0 4) by lia.
  reflexivity.
Qed.

Lemma string_length_app (s t : string) :
  String.length (s +:+ t) = (String.length s + String.length t)%nat.
Proof. induction s as [|a s IH]; simpl; [reflexivity | now rewrite IH]. Qed.

Lemma hex_length (bs : list Byte.byte) :
  String.length (hex bs) = (2 * length bs)%nat.
Proof.
  induction bs as [|b bs IH]; [reflexivity|].
  change (hex (b :: bs)) with (hex_byte b +:+ hex bs).
  rewrite string_length_app, IH. simpl. lia.
Qed.

Lemma uuid_format_length (b : list Byte.byte) :
  length b = 16%nat → String.length (uuid_format b) = 36%nat.
Proof.
  intros Hlen. unfold uuid_format, slice.
  rewrite !string_length_app, !hex_length, !length_take, !length_drop, Hlen.
  reflexivity.
Qed.

(** C7.  [uuid] takes one reading of the entropy device and always
    returns a string, never a panic or an error.  When the device cannot
    be opened or read the string is empty.  Otherwise the 16-byte buffer
    holds the bytes delivered (zero where the read fell short), and the
    string, cut at its hyphens, is exactly five groups of hexadecimal
    digits that spell bytes 0-3, 4-5, 6-7, 8-9 and 10-15 of the buffer:
    4, 2, 2, 2 and 6 bytes, 16 in all. *)
Theorem uuid_layout (w : World) :
  ∃ s : string,
    uuid w = (Ok s, set_urandom (λ n, urandom w (S n)) w) ∧
    match urandom w 0%nat with
    | OpenFails => s = ""
    | ReadFails => s = ""
    | ReadBytes bs =>
        let b := take 16 (bs ++ replicate 16 Byte.x00) in
        ∃ g1 g2 g3 g4 g5 : list Byte.byte,
          uuid_groups s = Some [g1; g2; g3; g4; g5] ∧
          map length [g1; g2; g3; g4; g5] = [4; 2; 2; 2; 6]%nat ∧
          g1 ++ g2 ++ g3 ++ g4 ++ g5 = b ∧
          length b = 16%nat ∧
          String.length s = 36%nat
    end.
Proof.
  exists (uuid_of (urandom w 0%nat)). split; [reflexivity|].
  destruct (urandom w 0%nat) as [| |bs]; [reflexivity..|].
  cbn [uuid_of]. fold (read_buffer bs).
  pose proof (read_buffer_length bs) as Hlen.
  set (b := read_buffer bs) in *.
  exists (slice b 0 4), (slice b 4 6), (slice b 6 8), (slice b 8 10), (drop 10 b).
  split; [apply uuid_groups_format|].
  split.
  { unfold slice. cbn [map]. rewrite !length_take, !length_drop, Hlen. reflexivity. }
  split; [apply read_buffer_slices|].
  split; [exact Hlen|].
  now apply uuid_format_length.
Qed.

(** ** Load *)

Ltac run_monad :=
  unfold memoryStore_Load, memoryStore_Save, NewSession, uuid, session_Get,
    session_Set, sweep_entry, void, bind, pure, panic, store_lookup,
    store_insert, store_delete, time_Seconds, read_urandom, deref,
    write_session, alloc_session, write_var; cbn beta iota.

Lemma fresh_session_loc (w : World) : sessions w !! fresh (dom (sessions w)) = None.
Proof. apply not_elem_of_dom, is_fresh. Qed.

(** C1, as the specification states it, fails: the entry saved at time 0
    is long expired at time 5000, and [Load] still returns it. *)
Lemma Load_returns_expired_entry :
  ¬ Load_checks_expiry stale_world stale_request 5000.
Proof.
  intros (p & w' & Hload & Hspec).
  vm_compute in Hload. injection Hload as <- <-.
  vm_compute in Hspec. destruct Hspec as [Hnone _]. discriminate Hnone.
Qed.

(** C1, amended.  [Load] never panics.  When the store has an entry under
    the cookie value it returns that entry's session, whatever its
    timestamp, and changes nothing.  When it has none it returns a new
    object with the identifier from [uuid], no data and the current time;
    the store keeps its entries. *)
Theorem Load_returns_entry_or_new (w : World) (req : Request) :
  ∃ p w', memoryStore_Load req w = (Ok p, w') ∧
    match store w !! Values_Get (Cookie req) sessionCookieName with
    | Some q => p = q ∧ w' = w
    | None =>
        sessions w !! p = None ∧
        sessions w' =
          <[p := mkSession ∅ (uuid_of (urandom w 0%nat)) (clock w 0%nat)]>
            (sessions w) ∧
        store w' = store w ∧ vars w' = vars w
    end.
Proof.
  run_monad.
  destruct (store w !! Values_Get (Cookie req) sessionCookieName) as [q|] eqn:Hq.
  - exists q, w. auto.
  - eexists _, _. split; [reflexivity|]. cbn.
    split; [apply fresh_session_loc|]. auto.
Qed.

Lemma session_Get_store (req : Request) (key : string) (ret : value) (w : World) :
  store (snd (session_Get req key ret w)) = store w.
Proof.
  run_monad.
  destruct (env_session req) as [sess|]; [|reflexivity].
  destruct (sessions w !! sess) as [s|]; [|reflexivity].
  destruct (data s !! key) as [val|]; [|reflexivity].
  unfold reflect_Elem, reflect_Set, panic, write_var, write_session.
  destruct ret as [| | | | |q|t q|]; try reflexivity.
  - destruct (sessions w !! q); [|reflexivity].
    destruct val; reflexivity.
  - destruct (vars w !! q); [|reflexivity].
    destruct (type_of val) as [tx|]; [|reflexivity].
    destruct (assignable tx t); reflexivity.
Qed.

Lemma session_Set_store (req : Request) (key : string) (v : value) (w : World) :
  store (snd (session_Set req key v w)) = store w.
Proof.
  run_monad.
  destruct (env_session req) as [sess|]; [|reflexivity].
  destruct (sessions w !! sess) as [s|]; reflexivity.
Qed.

Lemma accessors_keep_store (os : list op) (w : World) :
  forallb accessor os = true → store (run os w) = store w.
Proof.
  revert w. induction os as [|o os IH]; intros w Hacc; [reflexivity|].
  cbn in Hacc. apply andb_prop in Hacc as [Ho Hos].
  cbn [run]. rewrite (IH _ Hos).
  destruct o; try discriminate Ho; cbn [exec].
  - apply session_Get_store.
  - unfold void, bind, pure. pose proof (session_Set_store req key v w) as H.
    destruct (session_Set req key v w) as [[b|msg] w']; exact H.
Qed.

(** C8.  On a miss [Load] returns a new object and leaves the store's
    mapping as it was: the same keys at the same sessions, every earlier
    session untouched, and no entry pointing at the new object.  Any
    number of [Get] and [Set] calls afterwards still leave the mapping
    as it was before the [Load]. *)
Theorem Load_miss_leaves_store (w : World) (req : Request) :
  store_live w →
  store w !! Values_Get (Cookie req) sessionCookieName = None →
  ∃ p w', memoryStore_Load req w = (Ok p, w') ∧
    store w' = store w ∧
    sessions w ⊆ sessions w' ∧
    sessions w !! p = None ∧
    map_Forall (λ (_ : string) (q : loc), q ≠ p) (store w') ∧
    ∀ os, forallb accessor os = true → store (run os w') = store w.
Proof.
  intros Hlive Hmiss. run_monad. rewrite Hmiss.
  eexists _, _. split; [reflexivity|]. cbn.
  pose proof (fresh_session_loc w) as Hfresh.
  split; [reflexivity|].
  split; [now apply insert_subseteq|].
  split; [exact Hfresh|].
  split.
  - intros k q Hk ->. destruct (Hlive k _ Hk) as [s Hs]. congruence.
  - intros os Hacc. now rewrite accessors_keep_store.
Qed.

Lemma one_session_world_live : store_live one_session_world.
Proof.
  intros k p Hk. cbn in Hk. apply lookup_singleton_Some in Hk as [_ <-].
  eexists. reflexivity.
Qed.

Lemma Load_miss_leaves_store_witness :
  ∃ p w', memoryStore_Load bare_request one_session_world = (Ok p, w') ∧
    store w' = store one_session_world ∧
    sessions one_session_world ⊆ sessions w' ∧
    sessions one_session_world !! p = None ∧
    map_Forall (λ (_ : string) (q : loc), q ≠ p) (store w') ∧
    ∀ os, forallb accessor os = true →
          store (run os w') = store one_session_world.
Proof.
  apply (Load_miss_leaves_store one_session_world bare_request).
  - exact one_session_world_live.
  - reflexivity.
Defined.

(** ** Save *)

Lemma memoryStore_Save_live (w : World) (req : Request) (p : loc) (s : Session) :
  sessions w !! p = Some s →
  memoryStore_Save req p w =
    (Ok true,
     set_store (<[id s := p]> (store w))
       (set_sessions (<[p := mkSession (data s) (id s) (clock w 0%nat)]> (sessions w))
          (set_clock (λ n, clock w (S n)) w))).
Proof. intros Hp. run_monad. cbn. now rewrite Hp. Qed.

(** C5.  [Save] of a session that exists returns [true].  Afterwards the
    session carries the time read from the clock, with its identifier and
    data as before, the store maps the session's identifier to it,
    replacing whatever was there, and every other entry and every other
    session is as before. *)
Theorem Save_stamps_and_stores (w : World) (req : Request) (p : loc) (s : Session) :
  sessions w !! p = Some s →
  ∃ w', memoryStore_Save req p w = (Ok true, w') ∧
    sessions w' = <[p := mkSession (data s) (id s) (clock w 0%nat)]> (sessions w) ∧
    store w' = <[id s := p]> (store w) ∧
    store w' !! id s = Some p ∧
    vars w' = vars w.
Proof.
  intros Hp. eexists. split; [exact (memoryStore_Save_live w req p s Hp)|].
  cbn. rewrite lookup_insert_eq. auto.
Qed.

Lemma Save_stamps_and_stores_witness :
  ∃ w', memoryStore_Save bare_request 1%positive one_session_world = (Ok true, w') ∧
    sessions w' = <[1%positive := mkSession ∅ "a" 2000]> (sessions one_session_world) ∧
    store w' = <["a" := 1%positive]> (store one_session_world) ∧
    store w' !! "a" = Some 1%positive ∧
    vars w' = vars one_session_world.
Proof.
  apply (Save_stamps_and_stores one_session_world bare_request 1%positive
           (mkSession ∅ "a" 100)).
  reflexivity.
Defined.

(** ** The empty identifier *)

Lemma Load_hit (w : World) (req : Request) (p : loc) :
  store w !! Values_Get (Cookie req) sessionCookieName = Some p →
  memoryStore_Load req w = (Ok p, w).
Proof. intros Hp. run_monad. now rewrite Hp. Qed.

Lemma Values_Get_no_cookie (req : Request) :
  Cookie req !! sessionCookieName = None →
  Values_Get (Cookie req) sessionCookieName = "".
Proof. intros Hc. unfold Values_Get. now rewrite Hc. Qed.

(** C10.  Once a session whose identifier is the empty string has been
    saved, every request whose session cookie value is empty, as it is
    for a request without the cookie, is answered by [Load] with that
    very object, and the world is not changed by the lookup: two such
    requests hold the same session. *)
Theorem Load_shares_empty_identifier
    (w : World) (req0 req1 req2 : Request) (p : loc) (s : Session) :
  sessions w !! p = Some s →
  id s = "" →
  Values_Get (Cookie req1) sessionCookieName = "" →
  Values_Get (Cookie req2) sessionCookieName = "" →
  ∃ w1, memoryStore_Save req0 p w = (Ok true, w1) ∧
    store w1 !! "" = Some p ∧
    memoryStore_Load req1 w1 = (Ok p, w1) ∧
    memoryStore_Load req2 w1 = (Ok p, w1).
Proof.
  intros Hp Hid Hc1 Hc2.
  eexists. split; [exact (memoryStore_Save_live w req0 p s Hp)|].
  assert (Hst : <[id s := p]> (store w) !! "" = Some p).
  { rewrite Hid. apply lookup_insert_eq. }
  split; [exact Hst|].
  split; apply Load_hit; [rewrite Hc1 | rewrite Hc2]; exact Hst.
Qed.

Lemma Load_shares_empty_identifier_witness :
  ∃ w1, memoryStore_Save bare_request 1%positive anonymous_world = (Ok true, w1) ∧
    store w1 !! "" = Some 1%positive ∧
    memoryStore_Load bare_request w1 = (Ok 1%positive, w1) ∧
    memoryStore_Load (mkRequest ∅ {[ "other" := VInt 1 ]}) w1 = (Ok 1%positive, w1).
Proof.
  apply (Load_shares_empty_identifier anonymous_world bare_request bare_request
           (mkRequest ∅ {[ "other" := VInt 1 ]}) 1%positive (mkSession ∅ "" 100));
    reflexivity.
Defined.

(** ** Sweep *)

Lemma wrap64_small (z : Z) : - 2 ^ 63 ≤ z < 2 ^ 63 → wrap64 z = z.
Proof. intros Hz. unfold wrap64. rewrite Z.mod_small; lia. Qed.

Lemma expired_spec (s : Session) (now : Z) :
  timestamp_ok s →
  expired (timestamp s) now = bool_decide (timestamp s + sessionValidSeconds < now).
Proof.
  intros [Hlo Hhi]. unfold expired, int64_add.
  rewrite wrap64_small by (unfold sessionValidSeconds in *; lia).
  destruct (Z.ltb_spec (timestamp s + sessionValidSeconds) now).
  - now rewrite bool_decide_eq_true_2.
  - rewrite bool_decide_eq_false_2; [reflexivity | lia].
Qed.

Lemma sweep_entry_spec (now : Z) (w : World) (k : string) (p : loc) (s : Session) :
  sessions w !! p = Some s →
  timestamp_ok s →
  clock w 0%nat = now →
  sweep_entry k p w =
    (Ok (bool_decide (timestamp s + sessionValidSeconds < now)),
     set_store (if bool_decide (timestamp s + sessionValidSeconds < now)
                then delete k (store w) else store w)
               (set_clock (λ n, clock w (S n)) w)).
Proof.
  intros Hs Hok Hnow. run_monad. rewrite Hs. cbn [sessions set_clock clock].
  rewrite Hnow, (expired_spec s now Hok).
  destruct (bool_decide _); reflexivity.
Qed.

Lemma sweep_range_spec (now : Z) (w0 : World) (es : list (string * loc)) :
  ∀ (i : nat) (w : World),
    sessions w = sessions w0 →
    Forall (λ kp : string * loc,
              ∃ s, sessions w0 !! kp.2 = Some s ∧ timestamp_ok s) es →
    (∀ j, (j < length es)%nat → clock w j = now) →
    ∃ w', sweep_range es i w =
            (Ok (i + length (filter (entry_expired w0 now) es))%nat, w') ∧
      sessions w' = sessions w ∧ vars w' = vars w ∧
      logged w' = logged w ∧
      ∀ k, store w' !! k =
           if decide (k ∈ (filter (entry_expired w0 now) es).*1)
           then None else store w !! k.
Proof.
  induction es as [|[k p] es IH]; intros i w Hsess Hlive Hclock.
  - exists w. cbn. rewrite Nat.add_0_r. repeat split; reflexivity.
  - apply Forall_cons in Hlive as [(s & Hs & Hok) Hlive].
    cbn [snd] in Hs.
    assert (Hnext : ∀ j, (j < length es)%nat → clock w (S j) = now).
    { intros j Hj. apply Hclock. cbn [length]. lia. }
    cbn [sweep_range]. unfold bind at 1.
    rewrite (sweep_entry_spec now w k p s) by
      (rewrite ?Hsess; first [exact Hs | exact Hok | apply Hclock; cbn [length]; lia]).
    destruct (decide (timestamp s + sessionValidSeconds < now)) as [Hexp|Hexp].
    + rewrite !bool_decide_eq_true_2 by exact Hexp.
      destruct (IH (S i) (set_store (delete k (store w))
                            (set_clock (λ n, clock w (S n)) w)))
        as (w' & Hrun & Hs' & Hv' & Hl' & Hst'); [exact Hsess | exact Hlive | exact Hnext |].
      exists w'.
      rewrite filter_cons_True by (unfold entry_expired; cbn [snd]; now rewrite Hs).
      cbn [length]. rewrite Nat.add_succ_r. split; [exact Hrun|].
      repeat split; try assumption.
      intros k'. rewrite Hst'. rewrite fmap_cons. cbn [fst store set_store].
      destruct (decide (k' = k)) as [->|Hne].
      * rewrite (decide_True (P := k ∈ k :: _)) by apply list_elem_of_here.
        destruct (decide _); [reflexivity | apply lookup_delete_eq].
      * rewrite lookup_delete_ne by congruence.
        destruct (decide (k' ∈ _)) as [Hin|Hin].
        -- rewrite decide_True; [reflexivity | now apply list_elem_of_further].
        -- rewrite decide_False; [reflexivity|].
           intros [?|?]%elem_of_cons; contradiction.
    + rewrite !bool_decide_eq_false_2 by exact Hexp.
      destruct (IH i (set_store (store w) (set_clock (λ n, clock w (S n)) w)))
        as (w' & Hrun & Hs' & Hv' & Hl' & Hst'); [exact Hsess | exact Hlive | exact Hnext |].
      exists w'.
      rewrite filter_cons_False by (unfold entry_expired; cbn [snd]; now rewrite Hs).
      split; [exact Hrun|]. repeat split; assumption.
Qed.

Lemma size_filter_to_list (P : string * loc → Prop) `{!∀ x, Decision (P x)}
    (m : gmap string loc) :
  length (filter P (map_to_list m)) = size (filter P m).
Proof.
  rewrite map_filter_alt, <- length_map_to_list.
  symmetry. apply Permutation_length, map_to_list_to_map.
  apply (sublist_NoDup _ (map_to_list m).*1); [apply NoDup_fst_map_to_list|].
  apply fmap_sublist, sublist_filter.
Qed.

Lemma size_filter_complement (P : string * loc → Prop) `{!∀ x, Decision (P x)}
    (m : gmap string loc) :
  (size (filter (λ kp, ¬ P kp) m) + size (filter P m) = size m)%nat.
Proof.
  rewrite <- (map_filter_union_complement P m) at 3.
  rewrite map_size_disj_union by apply map_disjoint_filter_complement.
  lia.
Qed.

(** C3.  One pass of the sweep loop, run while the clock reads [now], over
    a store whose sessions carry timestamps read from the clock: the
    entries removed are exactly those whose timestamp plus 1440 is
    strictly less than [now].  The pass reports the N entries it started
    with and the M it deleted, M is the number of expired entries, the
    N - M others are all still in the store, and no session object is
    touched. *)
Theorem sweep_pass_removes_expired (w : World) (now : Z) :
  sweepable w →
  (∀ j, (j < size (store w))%nat → clock w j = now) →
  ∃ w', sweep_pass w =
          (Ok (size (store w), size (filter (entry_expired w now) (store w))), w') ∧
    store w' = filter (λ kp, ¬ entry_expired w now kp) (store w) ∧
    (size (store w') + size (filter (entry_expired w now) (store w))
       = size (store w))%nat ∧
    sessions w' = sessions w ∧
    logged w' =
      logged w ++ [(size (store w), size (filter (entry_expired w now) (store w)))].
Proof.
  intros Hsw Hclock.
  destruct (sweep_range_spec now w (map_to_list (store w)) 0 w)
    as (w1 & Hrun & Hs1 & Hv1 & Hl1 & Hst1).
  - reflexivity.
  - apply map_Forall_to_list in Hsw.
    eapply Forall_impl; [exact Hsw|]. intros [k p] H. exact H.
  - intros j Hj. apply Hclock. now rewrite <- length_map_to_list.
  - rewrite size_filter_to_list, Nat.add_0_l in Hrun.
    assert (Hkept : store w1 = filter (λ kp, ¬ entry_expired w now kp) (store w)).
    { apply map_eq. intros k. rewrite Hst1.
      destruct (decide _) as [Hin|Hin].
      - apply list_elem_of_fmap in Hin as ([k' p] & -> & Hin).
        apply list_elem_of_filter in Hin as [Hexp Hin].
        apply elem_of_map_to_list in Hin. cbn [fst].
        symmetry. apply map_lookup_filter_None. right.
        intros p' Hp' Hnot. rewrite Hin in Hp'. injection Hp' as <-. contradiction.
      - destruct (store w !! k) as [p|] eqn:Hk.
        + symmetry. apply map_lookup_filter_Some. split; [exact Hk|].
          intros Hexp. apply Hin. apply list_elem_of_fmap.
          exists (k, p). split; [reflexivity|].
          apply list_elem_of_filter. split; [exact Hexp|].
          now apply elem_of_map_to_list.
        + symmetry. apply map_lookup_filter_None. left. exact Hk. }
    exists (set_logged
              (logged w1 ++
                 [(size (store w), size (filter (entry_expired w now) (store w)))]) w1).
    split.
    { unfold sweep_pass, bind. rewrite Hrun. reflexivity. }
    cbn [store sessions logged set_logged].
    rewrite Hkept, Hs1, Hl1.
    split; [reflexivity|]. split; [apply size_filter_complement|].
    split; reflexivity.
Qed.

Example sweep_world_pass : fst (sweep_pass sweep_world) = Ok (3%nat, 2%nat).
Proof. vm_compute. reflexivity. Qed.

Example sweep_world_left :
  map_to_list (store (snd (sweep_pass sweep_world))) = [("b", 2%positive)].
Proof. vm_compute. reflexivity. Qed.

Lemma sweep_world_sweepable : sweepable sweep_world.
Proof.
  apply map_Forall_to_list.
  repeat constructor; cbn; eexists; (split; [reflexivity|]);
    unfold timestamp_ok, sessionValidSeconds; cbn; lia.
Qed.

Lemma sweep_pass_removes_expired_witness :
  ∃ w', sweep_pass sweep_world =
          (Ok (size (store sweep_world),
               size (filter (entry_expired sweep_world 2000) (store sweep_world))), w') ∧
    store w' = filter (λ kp, ¬ entry_expired sweep_world 2000 kp) (store sweep_world) ∧
    (size (store w') + size (filter (entry_expired sweep_world 2000) (store sweep_world))
       = size (store sweep_world))%nat ∧
    sessions w' = sessions sweep_world ∧
    logged w' =
      logged sweep_world ++
        [(size (store sweep_world),
          size (filter (entry_expired sweep_world 2000) (store sweep_world)))].
Proof.
  apply (sweep_pass_removes_expired sweep_world 2000).
  - exact sweep_world_sweepable.
  - intros j _. reflexivity.
Defined.

(** ** Get and Set *)

Lemma session_Set_bound (w : World) (req : Request) (key : string) (v : value)
    (sess : loc) (s : Session) :
  env_session req = Some sess →
  sessions w !! sess = Some s →
  session_Set req key v w =
    (Ok true,
     set_sessions
       (<[sess := mkSession (<[key := v]> (data s)) (id s) (timestamp s)]> (sessions w)) w).
Proof. intros Henv Hs. run_monad. rewrite Henv. cbn. now rewrite Hs. Qed.

(** [Get] on a key that holds [val], into a pointer at an existing
    variable of type [t]. *)
Lemma session_Get_present (w : World) (req : Request) (key : string)
    (sess : loc) (s : Session) (val old : value) (t : type) (dst : loc) :
  env_session req = Some sess →
  sessions w !! sess = Some s →
  data s !! key = Some val →
  vars w !! dst = Some old →
  session_Get req key (VPtr t dst) w = reflect_Set (Some (PVar t dst)) val w.
Proof.
  intros Henv Hs Hkey Hdst. run_monad. rewrite Henv. cbn.
  rewrite Hs, Hkey. cbn. now rewrite Hdst.
Qed.

(** [Get] on a key the session does not hold does nothing. *)
Lemma session_Get_absent (w : World) (req : Request) (key : string) (ret : value)
    (sess : loc) (s : Session) :
  env_session req = Some sess →
  sessions w !! sess = Some s →
  data s !! key = None →
  session_Get req key ret w = (Ok tt, w).
Proof.
  intros Henv Hs Hkey. run_monad. rewrite Henv. cbn. now rewrite Hs, Hkey.
Qed.

(** [Get] panics whenever the stored value is not assignable to the
    destination. *)
Lemma session_Get_mismatch (w : World) (req : Request) (key : string)
    (sess : loc) (s : Session) (val old : value) (tx t : type) (dst : loc) :
  env_session req = Some sess →
  sessions w !! sess = Some s →
  data s !! key = Some val →
  vars w !! dst = Some old →
  type_of val = Some tx →
  assignable tx t = false →
  session_Get req key (VPtr t dst) w =
    (Panic "reflect.Set: value is not assignable to type", w).
Proof.
  intros Henv Hs Hkey Hdst Hty Hne.
  rewrite (session_Get_present w req key sess s val old t dst) by assumption.
  unfold reflect_Set. now rewrite Hty, Hne.
Qed.



Example round_trip_string :
  let w1 := snd (session_Set bound_request "k" (VString "hello") one_session_world) in
  vars (snd (session_Get bound_request "k" (VPtr TString 1%positive) w1)) !! 1%positive
  = Some (VString "hello").
Proof. vm_compute. reflexivity. Qed.

(** C2 does not hold of the code.  After [Set] of a string under "k",
    [Get] of "k" into an [int] variable holding 7 does not return: the
    call of [reflect]'s [Set], guarded by [CanSet] alone, panics.  The
    variable still holds 7. *)
Theorem Get_string_into_int_panics :
  ∃ w1 msg,
    session_Set bound_request "k" (VString "hello") one_session_world = (Ok true, w1) ∧
    session_Get bound_request "k" (VPtr TInt 1%positive) w1 = (Panic msg, w1) ∧
    vars w1 !! 1%positive = Some (VInt 7).
Proof.
  eexists _, _. split.
  { apply (session_Set_bound _ _ _ _ 1%positive (mkSession ∅ "a" 100)); reflexivity. }
  split; [|reflexivity].
  apply (session_Get_mismatch _ _ _ 1%positive
           (mkSession (<["k" := VString "hello"]> ∅) "a" 100)
           (VString "hello") (VInt 7) TString TInt); reflexivity.
Qed.

(** ** The middleware *)

Lemma Header_Add_lookup (key v : string) (hd : gmap string (list string)) :
  Header_Add key v hd !! key = Some (default [] (hd !! key) ++ [v]).
Proof. apply lookup_insert_eq. Qed.

Lemma Header_Add_other (key key' v : string) (hd : gmap string (list string)) :
  key ≠ key' → Header_Add key v hd !! key' = hd !! key'.
Proof. intros Hne. now apply lookup_insert_ne. Qed.

Section MiddlewareProofs.

Variable NewCookie_String : string → string → string.
Variable down : Handler.

Lemma ServeWeb_responded
    (w w1 w2 : World) (req req2 : Request) (sess : loc)
    (status : Z) (header : gmap string (list string)) :
  memoryStore_Load req w = (Ok sess, w1) →
  down (mkRequest (Cookie req) (<["session" := VSession sess]> (Env req))) w1
    = (Ok (req2, Some (status, header)), w2) →
  ServeWeb NewCookie_String (SessionHandler memoryStore down) req w =
    (let! r := respond_filter NewCookie_String
                 (SessionHandler memoryStore down) req2 status header in
     pure (req2, Some r)) w2.
Proof.
  intros Hload Hdown. unfold ServeWeb, SessionHandler.
  cbn [manager h memoryStore Load].
  unfold bind at 1. rewrite Hload.
  unfold bind at 1. rewrite Hdown. reflexivity.
Qed.

(** C6.  [ServeWeb] first asks the manager to [Load]; the downstream
    handler then runs on the request with that session under the key
    "session" of its environment.  When the handler responds, the
    response depends on the slot as the handler left it.  If it holds a
    session, that session is saved: in the world [ServeWeb] leaves, the
    store is the handler's store with the session under its identifier
    and the session carries the time of the save, with the identifier and
    data it had.  The response goes out with the handler's status and
    with one more [Set-Cookie] value, the cookie named [twisterSess]
    whose value is the session's identifier.  If the slot holds no
    session, the status and the header go out as the handler gave them
    and the world is as the handler left it. *)
Theorem ServeWeb_binds_then_persists
    (w w1 w2 : World) (req req2 : Request) (sess : loc)
    (status : Z) (header : gmap string (list string)) :
  memoryStore_Load req w = (Ok sess, w1) →
  down (mkRequest (Cookie req) (<["session" := VSession sess]> (Env req))) w1
    = (Ok (req2, Some (status, header)), w2) →
  (∀ p, Env req2 !! "session" = Some (VSession p) → is_Some (sessions w2 !! p)) →
  Env (mkRequest (Cookie req) (<["session" := VSession sess]> (Env req))) !! "session"
    = Some (VSession sess) ∧
  match Env req2 !! "session" with
  | Some (VSession p) =>
      ∃ s w3 header',
        sessions w2 !! p = Some s ∧
        memoryStore_Save req2 p w2 = (Ok true, w3) ∧
        ServeWeb NewCookie_String (SessionHandler memoryStore down) req w
          = (Ok (req2, Some (status, header')), w3) ∧
        store w3 = <[id s := p]> (store w2) ∧
        store w3 !! id s = Some p ∧
        sessions w3 =
          <[p := mkSession (data s) (id s) (clock w2 0%nat)]> (sessions w2) ∧
        header' !! HeaderSetCookie =
          Some (default [] (header !! HeaderSetCookie) ++
                  [NewCookie_String sessionCookieName (id s)]) ∧
        ∀ key, key ≠ HeaderSetCookie → header' !! key = header !! key
  | _ =>
      ServeWeb NewCookie_String (SessionHandler memoryStore down) req w
        = (Ok (req2, Some (status, header)), w2)
  end.
Proof.
  intros Hload Hdown Hlive.
  split; [apply lookup_insert_eq|].
  rewrite (ServeWeb_responded w w1 w2 req req2 sess status header Hload Hdown).
  unfold respond_filter, env_session, SessionHandler.
  cbn [manager memoryStore Save].
  destruct (Env req2 !! "session") as [[|?|?|?|?|p|? ?|? ? ?]|] eqn:Hslot;
    try reflexivity.
  destruct (Hlive p eq_refl) as [s Hs].
  pose proof (memoryStore_Save_live w2 req2 p s Hs) as Hsave.
  eexists s, _, (Header_Add HeaderSetCookie
                   (NewCookie_String sessionCookieName (id s)) header).
  split; [exact Hs|]. split; [exact Hsave|].
  split.
  { unfold bind, pure, deref. rewrite Hsave. cbn [sessions set_store set_sessions].
    rewrite lookup_insert_eq. reflexivity. }
  cbn [store sessions set_store set_sessions].
  split; [reflexivity|]. split; [apply lookup_insert_eq|]. split; [reflexivity|].
  split; [apply Header_Add_lookup|].
  intros key Hne. apply Header_Add_other. congruence.
Qed.

End MiddlewareProofs.

Lemma ServeWeb_binds_then_persists_witness :
  ∃ s w3 header',
    sessions handled_world !! 2%positive = Some s ∧
    memoryStore_Save first_request 2%positive handled_world = (Ok true, w3) ∧
    ServeWeb plain_cookie (SessionHandler memoryStore counting_handler)
        bare_request one_session_world
      = (Ok (first_request, Some (200, header')), w3) ∧
    store w3 = <[id s := 2%positive]> (store handled_world) ∧
    store w3 !! id s = Some 2%positive ∧
    sessions w3 =
      <[2%positive := mkSession (data s) (id s) (clock handled_world 0%nat)]>
        (sessions handled_world) ∧
    header' !! HeaderSetCookie =
      Some [plain_cookie sessionCookieName (id s)] ∧
    ∀ key, key ≠ HeaderSetCookie → header' !! key = (∅ : gmap string (list string)) !! key.
Proof.
  refine (proj2 (ServeWeb_binds_then_persists plain_cookie counting_handler
            one_session_world loaded_world handled_world
            bare_request first_request 2%positive 200 ∅ _ _ _)).
  - vm_compute. reflexivity.
  - vm_compute. reflexivity.
  - intros p Hp. vm_compute in Hp. injection Hp as <-.
    vm_compute. eexists. reflexivity.
Defined.

(** ** Identifier and timestamp of a session over time *)

Lemma sweep_entry_sessions (k : string) (p : loc) (w : World) :
  sessions (snd (sweep_entry k p w)) = sessions w.
Proof.
  run_monad. destruct (sessions w !! p) as [s|]; [|reflexivity].
  cbn. destruct (expired _ _); reflexivity.
Qed.

Lemma sweep_range_sessions (es : list (string * loc)) (i : nat) (w : World) :
  sessions (snd (sweep_range es i w)) = sessions w.
Proof.
  revert i w. induction es as [|[k p] es IH]; intros i w; [reflexivity|].
  cbn [sweep_range]. unfold bind.
  pose proof (sweep_entry_sessions k p w) as Hstep.
  destruct (sweep_entry k p w) as [[deleted|msg] w1]; cbn [snd] in Hstep.
  - now rewrite IH.
  - exact Hstep.
Qed.

Lemma sweep_pass_sessions (w : World) : sessions (snd (sweep_pass w)) = sessions w.
Proof.
  unfold sweep_pass, bind.
  pose proof (sweep_range_sessions (map_to_list (store w)) 0 w) as Hrange.
  destruct (sweep_range (map_to_list (store w)) 0 w) as [[i|msg] w1];
    cbn [snd] in Hrange; exact Hrange.
Qed.

Lemma session_Get_sessions (req : Request) (key : string) (ret : value) (w : World) :
  session_destination ret = false →
  sessions (snd (session_Get req key ret w)) = sessions w.
Proof.
  intros Hret. run_monad.
  destruct (env_session req) as [sess|]; [|reflexivity].
  destruct (sessions w !! sess) as [s|]; [|reflexivity].
  destruct (data s !! key) as [val|]; [|reflexivity].
  unfold reflect_Elem, reflect_Set, panic, write_var.
  destruct ret as [| | | | |q|t q|]; try reflexivity; [discriminate Hret|].
  destruct (vars w !! q); [|reflexivity].
  destruct (type_of val) as [tx|]; [|reflexivity].
  destruct (assignable tx t); reflexivity.
Qed.

Lemma exec_keeps (o : op) (w : World) (p : loc) (s : Session) :
  overwrites_session o = false →
  sessions w !! p = Some s →
  ∃ s', sessions (snd (exec o w)) !! p = Some s' ∧ id s' = id s ∧
        (saves p o = false → timestamp s' = timestamp s).
Proof.
  intros Hover Hp.
  destruct o as [req|req q| |req key ret|req key v]; cbn [exec saves].
  - (* Load *)
    exists s. split; [|auto].
    run_monad. destruct (store w !! _) as [q|]; [exact Hp|].
    cbn. rewrite lookup_insert_ne; [exact Hp|].
    intros Heq. pose proof (fresh_session_loc w) as Hf. congruence.
  - (* Save *)
    run_monad. cbn. destruct (sessions w !! q) as [sq|] eqn:Hq.
    + cbn. destruct (decide (q = p)) as [->|Hne].
      * rewrite lookup_insert_eq. eexists. split; [reflexivity|].
        assert (sq = s) as -> by congruence.
        split; [reflexivity|].
        rewrite bool_decide_eq_true_2 by reflexivity. discriminate.
      * rewrite lookup_insert_ne by exact Hne. exists s. auto.
    + exists s. auto.
  - (* Sweep *)
    exists s. split; [|auto]. unfold void, bind, pure.
    pose proof (sweep_pass_sessions w) as Hsw.
    destruct (sweep_pass w) as [[r|msg] w1]; cbn [snd] in *; now rewrite Hsw.
  - (* Get *)
    exists s. split; [|auto]. now rewrite session_Get_sessions.
  - (* Set *)
    run_monad. destruct (env_session req) as [q|]; [|exists s; auto].
    destruct (sessions w !! q) as [sq|] eqn:Hq; [|exists s; auto].
    cbn. destruct (decide (q = p)) as [->|Hne].
    + rewrite lookup_insert_eq. eexists. split; [reflexivity|].
      assert (sq = s) as -> by congruence. auto.
    + rewrite lookup_insert_ne by exact Hne. exists s. auto.
Qed.

(** C9, as the specification states it, fails: a [Get] whose destination
    is the session itself, on a key that holds a [Session] struct,
    replaces the whole object.  With no [Save] at all, session 1 ends
    with the identifier "b" in place of "a". *)
Lemma Get_overwrites_session :
  ¬ id_and_timestamp_kept overwriting_ops two_session_world 1%positive.
Proof.
  intros Hkept.
  destruct (Hkept (mkSession ∅ "a" 100) eq_refl) as (s' & Hs' & Hid & _).
  vm_compute in Hs'. injection Hs' as <-. discriminate Hid.
Qed.

Example overwriting_ops_end :
  let w := run overwriting_ops two_session_world in
  sessions w !! 1%positive = Some (mkSession ∅ "b" 200) ∧
  store w !! "a" = Some 1%positive.
Proof. vm_compute. split; reflexivity. Qed.

(** C9, amended.  Over any sequence of [Load], [Save], sweep passes,
    [Get] and [Set] in which no [Get] has a pointer to a [Session] as its
    destination, a session that exists keeps existing with the identifier
    it had; and if the sequence has no [Save] of that session, it has the
    timestamp it had too. *)
Theorem id_fixed_timestamp_moved_by_Save
    (os : list op) (w : World) (p : loc) (s : Session) :
  forallb (λ o, negb (overwrites_session o)) os = true →
  sessions w !! p = Some s →
  ∃ s', sessions (run os w) !! p = Some s' ∧ id s' = id s ∧
        (forallb (λ o, negb (saves p o)) os = true → timestamp s' = timestamp s).
Proof.
  revert w s. induction os as [|o os IH]; intros w s Hno Hp.
  - exists s. auto.
  - cbn [forallb] in Hno. apply andb_prop in Hno as [Ho Hno].
    apply negb_true_iff in Ho.
    destruct (exec_keeps o w p s Ho Hp) as (s1 & Hp1 & Hid1 & Hts1).
    destruct (IH _ s1 Hno Hp1) as (s' & Hp' & Hid' & Hts').
    exists s'. cbn [run]. split; [exact Hp'|]. split; [congruence|].
    cbn [forallb]. intros [Hs Hos]%andb_prop.
    rewrite (Hts' Hos). apply Hts1. now apply negb_true_iff.
Qed.

Lemma id_fixed_timestamp_moved_by_Save_witness :
  ∃ s', sessions (run other_saved one_session_world) !! 1%positive = Some s' ∧
        id s' = "a" ∧ timestamp s' = 100.
Proof.
  destruct (id_fixed_timestamp_moved_by_Save other_saved one_session_world
              1%positive (mkSession ∅ "a" 100) eq_refl eq_refl)
    as (s' & Hs' & Hid & Hts).
  exists s'. split; [exact Hs'|]. split; [exact Hid|].
  apply Hts. reflexivity.
Defined.

Example other_saved_end :
  sessions (run other_saved one_session_world) !! 1%positive
  = Some (mkSession {[ "n" := VInt 1 ]} "a" 100).
Proof. vm_compute. reflexivity. Qed.

Example two_requests_end :
  sessions (run two_requests one_session_world) !! 1%positive
  = Some (mkSession {[ "n" := VInt 1 ]} "a" 2000).
Proof. vm_compute. reflexivity. Qed.

(** * Further properties of the code *)

(** ** The accessors without a session, a key or a destination *)

Lemma env_session_none (req : Request) :
  (∀ p, Env req !! "session" ≠ Some (VSession p)) → env_session req = None.
Proof.
  intros Hno. unfold env_session.
  destruct (Env req !! "session") as [[|?|?|?|?|p|? ?|? ? ?]|]; try reflexivity.
  now destruct (Hno p).
Qed.

(** X1.  When the environment slot "session" holds no pointer to a
    [Session] (it is empty, or holds a value of another type), [Set]
    returns [false] and changes nothing. *)
Theorem Set_without_session (w : World) (req : Request) (key : string) (v : value) :
  (∀ p, Env req !! "session" ≠ Some (VSession p)) →
  session_Set req key v w = (Ok false, w).
Proof.
  intros Hno. unfold session_Set. now rewrite (env_session_none req Hno).
Qed.

Lemma Set_without_session_witness :
  session_Set foreign_request "k" (VInt 1) one_session_world
  = (Ok false, one_session_world).
Proof.
  apply (Set_without_session one_session_world foreign_request "k" (VInt 1)).
  intros p Hp. vm_compute in Hp. discriminate Hp.
Defined.

(** X2.  [Get] returns normally and changes nothing, whatever the
    destination is (even one that is no pointer), when no session is
    bound to the request or when the bound session has no value under
    the key. *)
Theorem Get_nothing_to_read (w : World) (req : Request) (key : string) (ret : value) :
  (∀ p, Env req !! "session" ≠ Some (VSession p)) ∨
  (∃ sess s, Env req !! "session" = Some (VSession sess) ∧
             sessions w !! sess = Some s ∧ data s !! key = None) →
  session_Get req key ret w = (Ok tt, w).
Proof.
  intros [Hno | (sess & s & Hslot & Hs & Hkey)].
  - unfold session_Get. now rewrite (env_session_none req Hno).
  - apply (session_Get_absent w req key ret sess s); [|exact Hs | exact Hkey].
    unfold env_session. now rewrite Hslot.
Qed.

Lemma Get_nothing_to_read_witness :
  session_Get bound_request "missing" (VInt 3) one_session_world
  = (Ok tt, one_session_world).
Proof.
  apply (Get_nothing_to_read one_session_world bound_request "missing" (VInt 3)).
  right. exists 1%positive, (mkSession ∅ "a" 100). repeat split; reflexivity.
Defined.

(** X3.  [Get] into a nil pointer, one that points at no variable, is a
    no-op: [CanSet] is false for it, so nothing is assigned and nothing
    panics, whatever the type of the stored value. *)
Theorem Get_into_nil_pointer (w : World) (req : Request) (key : string)
    (sess : loc) (s : Session) (val : value) (t : type) (dst : loc) :
  Env req !! "session" = Some (VSession sess) →
  sessions w !! sess = Some s →
  data s !! key = Some val →
  vars w !! dst = None →
  session_Get req key (VPtr t dst) w = (Ok tt, w).
Proof.
  intros Hslot Hs Hkey Hdst. run_monad.
  unfold env_session. rewrite Hslot. cbn. rewrite Hs, Hkey. cbn.
  now rewrite Hdst.
Qed.

Lemma Get_into_nil_pointer_witness :
  session_Get bound_request "k" (VPtr TInt 9%positive) data_world = (Ok tt, data_world).
Proof.
  apply (Get_into_nil_pointer data_world bound_request "k" 1%positive
           (mkSession {[ "k" := VString "hello" ]} "a" 100) (VString "hello"));
    reflexivity.
Defined.

(** X4.  When the key is present, [Get] with a destination that is not a
    pointer panics (in [reflect]'s [Elem]) and changes nothing. *)
Theorem Get_into_non_pointer_panics (w : World) (req : Request) (key : string)
    (sess : loc) (s : Session) (val ret : value) :
  Env req !! "session" = Some (VSession sess) →
  sessions w !! sess = Some s →
  data s !! key = Some val →
  is_pointer ret = false →
  ∃ msg, session_Get req key ret w = (Panic msg, w).
Proof.
  intros Hslot Hs Hkey Hret. run_monad.
  unfold env_session. rewrite Hslot. cbn. rewrite Hs, Hkey.
  destruct ret; try discriminate Hret; eexists; reflexivity.
Qed.

Lemma Get_into_non_pointer_panics_witness :
  ∃ msg, session_Get bound_request "k" (VInt 0) data_world = (Panic msg, data_world).
Proof.
  apply (Get_into_non_pointer_panics data_world bound_request "k" 1%positive
           (mkSession {[ "k" := VString "hello" ]} "a" 100) (VString "hello"));
    reflexivity.
Defined.

(** X5.  Whenever the key holds a [bool], an [int], a [float64] or a
    [string] and the destination points at a variable of another of
    these four types, [Get] panics; the variable and the rest of the
    world are as before. *)
Theorem Get_other_type_panics (w : World) (req : Request) (key : string)
    (sess : loc) (s : Session) (val old : value) (tx t : type) (dst : loc) :
  Env req !! "session" = Some (VSession sess) →
  sessions w !! sess = Some s →
  data s !! key = Some val →
  vars w !! dst = Some old →
  type_of val = Some tx →
  basic tx = true →
  basic t = true →
  tx ≠ t →
  ∃ msg, session_Get req key (VPtr t dst) w = (Panic msg, w).
Proof.
  intros Hslot Hs Hkey Hdst Hty _ Hbasic Hne.
  rewrite (session_Get_present w req key sess s val old t dst);
    [| unfold env_session; now rewrite Hslot | assumption..].
  unfold reflect_Set, assignable. rewrite Hty.
  rewrite (bool_decide_eq_false_2 (tx = t)) by exact Hne.
  rewrite (bool_decide_eq_false_2 (t = TInterface))
    by (intros ->; discriminate Hbasic).
  eexists. reflexivity.
Qed.

Lemma Get_other_type_panics_witness :
  ∃ msg, session_Get bound_request "k" (VPtr TBool 1%positive) data_world
         = (Panic msg, data_world).
Proof.
  apply (Get_other_type_panics data_world bound_request "k" 1%positive
           (mkSession {[ "k" := VString "hello" ]} "a" 100) (VString "hello")
           (VInt 7) TString TBool 1%positive); try reflexivity; discriminate.
Defined.

(** X6.  A destination that points at an [interface{}] variable takes any
    stored value that is not the nil interface: [Get] returns normally,
    the variable holds the stored value, and no other variable, session
    or store entry changes. *)
Theorem Get_into_interface (w : World) (req : Request) (key : string)
    (sess : loc) (s : Session) (val old : value) (dst : loc) :
  Env req !! "session" = Some (VSession sess) →
  sessions w !! sess = Some s →
  data s !! key = Some val →
  vars w !! dst = Some old →
  val ≠ VNil →
  ∃ w', session_Get req key (VPtr TInterface dst) w = (Ok tt, w') ∧
    vars w' = <[dst := val]> (vars w) ∧
    sessions w' = sessions w ∧ store w' = store w.
Proof.
  intros Hslot Hs Hkey Hdst Hnil.
  rewrite (session_Get_present w req key sess s val old TInterface dst);
    [| unfold env_session; now rewrite Hslot | assumption..].
  unfold reflect_Set, assignable, write_var.
  destruct val; try (now destruct Hnil); cbn;
    rewrite ?orb_true_r; eexists; repeat split; reflexivity.
Qed.

Lemma Get_into_interface_witness :
  ∃ w', session_Get bound_request "k" (VPtr TInterface 2%positive) data_world = (Ok tt, w') ∧
    vars w' = <[2%positive := VString "hello"]> (vars data_world) ∧
    sessions w' = sessions data_world ∧ store w' = store data_world.
Proof.
  apply (Get_into_interface data_world bound_request "k" 1%positive
           (mkSession {[ "k" := VString "hello" ]} "a" 100) (VString "hello") VNil);
    try reflexivity; discriminate.
Defined.

(** ** Set, and what it leaves alone *)







(** ** Save and Load together *)



(** X11.  Two sessions with one identifier share one store entry and the
    last [Save] wins: after saving the first and then the second, the
    store is the old one with the second session under the identifier,
    [Load] with that cookie value returns the second, and no entry points
    at the first. *)
Theorem Save_last_writer_wins (w : World) (req req' : Request)
    (p1 p2 : loc) (s1 s2 : Session) :
  sessions w !! p1 = Some s1 →
  sessions w !! p2 = Some s2 →
  p1 ≠ p2 →
  id s1 = id s2 →
  Values_Get (Cookie req') sessionCookieName = id s2 →
  map_Forall (λ (_ : string) (q : loc), q ≠ p1) (store w) →
  ∃ w1 w2,
    memoryStore_Save req p1 w = (Ok true, w1) ∧
    memoryStore_Save req p2 w1 = (Ok true, w2) ∧
    memoryStore_Load req' w2 = (Ok p2, w2) ∧
    map_Forall (λ (_ : string) (q : loc), q ≠ p1) (store w2) ∧
    store w2 = <[id s2 := p2]> (store w).
Proof.
  intros Hp1 Hp2 Hne Hid Hcookie Hnone.
  eexists _, _.
  split; [exact (memoryStore_Save_live w req p1 s1 Hp1)|].
  split.
  { apply (memoryStore_Save_live _ req p2 s2). cbn.
    rewrite lookup_insert_ne by exact Hne. exact Hp2. }
  cbn [store set_store set_sessions set_clock]. rewrite Hid, insert_insert_eq.
  split; [apply Load_hit; rewrite Hcookie; apply lookup_insert_eq|].
  split; [|reflexivity].
  apply map_Forall_insert_2; [congruence | exact Hnone].
Qed.

Lemma Save_last_writer_wins_witness :
  ∃ w1 w2,
    memoryStore_Save bare_request 1%positive twin_world = (Ok true, w1) ∧
    memoryStore_Save bare_request 2%positive w1 = (Ok true, w2) ∧
    memoryStore_Load stale_request w2 = (Ok 2%positive, w2) ∧
    map_Forall (λ (_ : string) (q : loc), q ≠ 1%positive) (store w2) ∧
    store w2 = <["a" := 2%positive]> (store twin_world).
Proof.
  apply (Save_last_writer_wins twin_world bare_request stale_request
           1%positive 2%positive (mkSession ∅ "a" 100)
           (mkSession {[ "k" := VInt 1 ]} "a" 200));
    try reflexivity; [discriminate | apply map_Forall_empty].
Defined.

(** X12.  [Save] of a nil session pointer panics; the store and the
    sessions are as before. *)
Theorem Save_nil_panics (w : World) (req : Request) (p : loc) :
  sessions w !! p = None →
  ∃ msg w', memoryStore_Save req p w = (Panic msg, w') ∧
    store w' = store w ∧ sessions w' = sessions w ∧ vars w' = vars w.
Proof.
  intros Hp. run_monad. cbn. rewrite Hp. eexists _, _. repeat split; reflexivity.
Qed.

Lemma Save_nil_panics_witness :
  ∃ msg w', memoryStore_Save bare_request 5%positive one_session_world = (Panic msg, w') ∧
    store w' = store one_session_world ∧
    sessions w' = sessions one_session_world ∧
    vars w' = vars one_session_world.
Proof.
  apply (Save_nil_panics one_session_world bare_request 5%positive). reflexivity.
Defined.

(** X13.  The session [Load] makes on a miss is empty: through any request
    bound to it, [Get] of any key into any destination returns normally
    and changes nothing. *)
Theorem Load_miss_session_reads_nothing (w : World) (req : Request) :
  store w !! Values_Get (Cookie req) sessionCookieName = None →
  ∃ p w', memoryStore_Load req w = (Ok p, w') ∧
    ∀ req' key ret,
      Env req' !! "session" = Some (VSession p) →
      session_Get req' key ret w' = (Ok tt, w').
Proof.
  intros Hmiss. run_monad. rewrite Hmiss.
  eexists _, _. split; [reflexivity|].
  intros req' key ret Hslot. cbn.
  eapply session_Get_absent.
  - unfold env_session. now rewrite Hslot.
  - cbn. apply lookup_insert_eq.
  - reflexivity.
Qed.

Lemma Load_miss_session_reads_nothing_witness :
  ∃ p w', memoryStore_Load bare_request one_session_world = (Ok p, w') ∧
    ∀ req' key ret,
      Env req' !! "session" = Some (VSession p) →
      session_Get req' key ret w' = (Ok tt, w').
Proof.
  apply (Load_miss_session_reads_nothing one_session_world bare_request).
  reflexivity.
Defined.

(** ** Sweep: what a pass may and may not do *)

Lemma sweep_entry_store_subseteq (k : string) (p : loc) (w : World) :
  store (snd (sweep_entry k p w)) ⊆ store w.
Proof.
  run_monad. destruct (sessions w !! p) as [s|]; [|reflexivity].
  cbn. destruct (expired _ _); cbn; [apply delete_subseteq | reflexivity].
Qed.

Lemma sweep_range_store_subseteq (es : list (string * loc)) (i : nat) (w : World) :
  store (snd (sweep_range es i w)) ⊆ store w.
Proof.
  revert i w. induction es as [|[k p] es IH]; intros i w; [reflexivity|].
  cbn [sweep_range]. unfold bind.
  pose proof (sweep_entry_store_subseteq k p w) as Hstep.
  destruct (sweep_entry k p w) as [[deleted|msg] w1]; cbn [snd] in Hstep.
  - etrans; [apply IH | exact Hstep].
  - exact Hstep.
Qed.

Lemma sweep_pass_store_subseteq (w : World) : store (snd (sweep_pass w)) ⊆ store w.
Proof.
  unfold sweep_pass, bind.
  pose proof (sweep_range_store_subseteq (map_to_list (store w)) 0 w) as Hrange.
  destruct (sweep_range (map_to_list (store w)) 0 w) as [[i|msg] w1];
    cbn [snd] in Hrange; exact Hrange.
Qed.

(** X14.  However many passes [Sweep] makes, whatever the clock reads and
    whether or not a pass panics, it only removes entries: the store it
    leaves is part of the store it found, and no session object is
    changed, so no identifier, timestamp or datum moves. *)
Theorem Sweep_only_removes (n : nat) (w : World) :
  store (snd (memoryStore_Sweep n w)) ⊆ store w ∧
  sessions (snd (memoryStore_Sweep n w)) = sessions w.
Proof.
  revert w. induction n as [|n IH]; intros w; [split; reflexivity|].
  cbn [memoryStore_Sweep]. unfold bind.
  pose proof (sweep_pass_store_subseteq w) as Hst.
  pose proof (sweep_pass_sessions w) as Hse.
  destruct (sweep_pass w) as [[r|msg] w1]; cbn [snd] in Hst, Hse.
  - destruct (IH w1) as [Hst1 Hse1]. split.
    + etrans; [exact Hst1 | exact Hst].
    + now rewrite Hse1.
  - split; assumption.
Qed.

(** X15.  The comparison is made in [int64]: for a session whose
    timestamp is within 1440 of the top of the range the sum wraps to a
    negative number, and the entry is deleted at any clock reading that
    is not negative, although its timestamp plus the window is not before
    that reading. *)
Theorem sweep_entry_wraps (w : World) (k : string) (p : loc) (s : Session) :
  sessions w !! p = Some s →
  2 ^ 63 - sessionValidSeconds ≤ timestamp s < 2 ^ 63 →
  0 ≤ clock w 0%nat < 2 ^ 63 →
  clock w 0%nat < timestamp s + sessionValidSeconds ∧
  ∃ w', sweep_entry k p w = (Ok true, w') ∧ store w' = delete k (store w).
Proof.
  intros Hs [Hlo Hhi] Hnow. unfold sessionValidSeconds in *.
  split; [lia|].
  run_monad. rewrite Hs. cbn.
  assert (Hexp : expired (timestamp s) (clock w 0%nat) = true).
  { unfold expired, int64_add, wrap64, sessionValidSeconds.
    apply Z.ltb_lt.
    replace (timestamp s + 1440 + 2 ^ 63)
      with (timestamp s + 1440 - 2 ^ 63 + 1 * 2 ^ 64) by lia.
    rewrite Z_mod_plus_full, Z.mod_small by lia. lia. }
  rewrite Hexp. eexists. split; reflexivity.
Qed.

Lemma sweep_entry_wraps_witness :
  clock latest_world 0%nat < 2 ^ 63 - 1 + sessionValidSeconds ∧
  ∃ w', sweep_entry "z" 1%positive latest_world = (Ok true, w') ∧
        store w' = delete "z" (store latest_world).
Proof.
  apply (sweep_entry_wraps latest_world "z" 1%positive (mkSession ∅ "z" (2 ^ 63 - 1)));
    [reflexivity | cbn; unfold sessionValidSeconds; lia | cbn; lia].
Defined.

Lemma sweep_range_clock (now : Z) (w0 : World) (es : list (string * loc)) :
  ∀ (i : nat) (w : World),
    sessions w = sessions w0 →
    Forall (λ kp : string * loc,
              ∃ s, sessions w0 !! kp.2 = Some s ∧ timestamp_ok s) es →
    (∀ j, (j < length es)%nat → clock w j = now) →
    ∀ j, clock (snd (sweep_range es i w)) j = clock w (length es + j)%nat.
Proof.
  induction es as [|[k p] es IH]; intros i w Hsess Hlive Hclock j; [reflexivity|].
  apply Forall_cons in Hlive as [(s & Hs & Hok) Hlive]. cbn [snd] in Hs.
  cbn [sweep_range]. unfold bind at 1.
  rewrite (sweep_entry_spec now w k p s) by
    (rewrite ?Hsess; first [exact Hs | exact Hok | apply Hclock; cbn [length]; lia]).
  rewrite IH; [reflexivity | exact Hsess | exact Hlive |].
  intros j' Hj'. cbn. apply Hclock. cbn [length]. lia.
Qed.

Lemma swept_store_is_filter (P : string * loc → Prop) `{!∀ x, Decision (P x)}
    (m m' : gmap string loc) :
  (∀ k, m' !! k = if decide (k ∈ (filter P (map_to_list m)).*1)
                  then None else m !! k) →
  m' = filter (λ kp, ¬ P kp) m.
Proof.
  intros Hlook. apply map_eq. intros k. rewrite Hlook.
  destruct (decide _) as [Hin|Hin].
  - apply list_elem_of_fmap in Hin as ([k' p] & -> & Hin).
    apply list_elem_of_filter in Hin as [HP Hin].
    apply elem_of_map_to_list in Hin. cbn [fst].
    symmetry. apply map_lookup_filter_None. right.
    intros p' Hp' Hnot. rewrite Hin in Hp'. injection Hp' as <-. contradiction.
  - destruct (m !! k) as [p|] eqn:Hk.
    + symmetry. apply map_lookup_filter_Some. split; [exact Hk|].
      intros HP. apply Hin. apply list_elem_of_fmap.
      exists (k, p). split; [reflexivity|].
      apply list_elem_of_filter. split; [exact HP|].
      now apply elem_of_map_to_list.
    + symmetry. apply map_lookup_filter_None. left. exact Hk.
Qed.

(** One pass under a steady clock: result, store, sessions and clock. *)
Lemma sweep_pass_steady (w : World) (now : Z) :
  sweepable w →
  (∀ j, (j < size (store w))%nat → clock w j = now) →
  ∃ w', sweep_pass w =
          (Ok (size (store w), size (filter (entry_expired w now) (store w))), w') ∧
    store w' = filter (λ kp, ¬ entry_expired w now kp) (store w) ∧
    sessions w' = sessions w ∧
    ∀ j, clock w' j = clock w (size (store w) + j)%nat.
Proof.
  intros Hsw Hclock.
  assert (Hall : Forall (λ kp : string * loc,
                           ∃ s, sessions w !! kp.2 = Some s ∧ timestamp_ok s)
                        (map_to_list (store w))).
  { apply map_Forall_to_list in Hsw.
    eapply Forall_impl; [exact Hsw|]. intros [k p] H. exact H. }
  assert (Hsteady : ∀ j, (j < length (map_to_list (store w)))%nat → clock w j = now).
  { intros j Hj. apply Hclock. now rewrite <- length_map_to_list. }
  destruct (sweep_range_spec now w (map_to_list (store w)) 0 w eq_refl Hall Hsteady)
    as (w1 & Hrun & Hs1 & _ & _ & Hst1).
  pose proof (sweep_range_clock now w (map_to_list (store w)) 0 w eq_refl Hall Hsteady)
    as Hck.
  rewrite Hrun in Hck. cbn [snd] in Hck.
  rewrite size_filter_to_list, Nat.add_0_l in Hrun.
  eexists. split.
  { unfold sweep_pass, bind. rewrite Hrun. reflexivity. }
  cbn [store sessions clock set_logged].
  split; [now apply swept_store_is_filter|].
  split; [exact Hs1|].
  intros j. rewrite Hck. now rewrite length_map_to_list.
Qed.

Lemma entry_expired_sessions (w w' : World) (now : Z) (kp : string * loc) :
  sessions w' = sessions w → entry_expired w' now kp ↔ entry_expired w now kp.
Proof. intros Hs. unfold entry_expired. now rewrite Hs. Qed.

(** X16.  A second pass at the same clock reading finds nothing to
    delete: after one pass no entry left in the store is expired, so the
    next pass reports 0 deleted and leaves the store as it is. *)
Theorem sweep_pass_twice (w : World) (now : Z) :
  sweepable w →
  (∀ j, clock w j = now) →
  ∃ w1 w2 m,
    sweep_pass w = (Ok (size (store w), m), w1) ∧
    sweep_pass w1 = (Ok (size (store w1), 0%nat), w2) ∧
    store w2 = store w1.
Proof.
  intros Hsw Hclock.
  destruct (sweep_pass_steady w now Hsw (λ j _, Hclock j))
    as (w1 & Hp1 & Hst1 & Hse1 & Hck1).
  assert (Hsw1 : sweepable w1).
  { intros k p Hk. rewrite Hst1 in Hk.
    apply map_lookup_filter_Some in Hk as [Hk _].
    rewrite Hse1. exact (Hsw k p Hk). }
  assert (Hkeep : ∀ k p, store w1 !! k = Some p → ¬ entry_expired w1 now (k, p)).
  { intros k p Hk. rewrite Hst1 in Hk.
    apply map_lookup_filter_Some in Hk as [_ Hk].
    now rewrite (entry_expired_sessions w w1 now (k, p) Hse1). }
  destruct (sweep_pass_steady w1 now Hsw1) as (w2 & Hp2 & Hst2 & _ & _).
  { intros j _. rewrite Hck1. apply Hclock. }
  assert (Hnone : filter (entry_expired w1 now) (store w1) = ∅).
  { apply map_empty_filter_2. intros k p Hk Hexp. exact (Hkeep k p Hk Hexp). }
  rewrite Hnone, map_size_empty in Hp2.
  exists w1, w2, (size (filter (entry_expired w now) (store w))).
  split; [exact Hp1|]. split; [exact Hp2|].
  rewrite Hst2. apply map_filter_id. exact Hkeep.
Qed.

Lemma sweep_pass_twice_witness :
  ∃ w1 w2 m,
    sweep_pass sweep_world = (Ok (size (store sweep_world), m), w1) ∧
    sweep_pass w1 = (Ok (size (store w1), 0%nat), w2) ∧
    store w2 = store w1.
Proof.
  apply (sweep_pass_twice sweep_world 2000).
  - exact sweep_world_sweepable.
  - intros j. reflexivity.
Defined.

(** X17.  A session saved when the clock reads T is still in the store
    after a pass made at any reading up to T + 1440, that reading
    included, and is gone after a pass made at any later reading. *)
Theorem saved_session_kept_for_window
    (w : World) (req : Request) (p : loc) (s : Session) (now : Z) :
  sweepable w →
  sessions w !! p = Some s →
  - 2 ^ 63 ≤ clock w 0%nat →
  clock w 0%nat + sessionValidSeconds < 2 ^ 63 →
  (∀ j, clock w (S j) = now) →
  ∃ w1 w2 r,
    memoryStore_Save req p w = (Ok true, w1) ∧
    sweep_pass w1 = (Ok r, w2) ∧
    store w2 !! id s =
      if decide (clock w 0%nat + sessionValidSeconds < now) then None else Some p.
Proof.
  intros Hsw Hp Hlo Hhi Hclock.
  pose proof (memoryStore_Save_live w req p s Hp) as Hsave.
  set (w1 := set_store (<[id s := p]> (store w))
               (set_sessions
                  (<[p := mkSession (data s) (id s) (clock w 0%nat)]> (sessions w))
                  (set_clock (λ n, clock w (S n)) w))) in *.
  assert (Hsw1 : sweepable w1).
  { assert (Hat : ∀ q, is_Some (sessions w !! q) →
                       (∃ sq, sessions w !! q = Some sq ∧ timestamp_ok sq) →
                       ∃ sq, sessions w1 !! q = Some sq ∧ timestamp_ok sq).
    { intros q _ (sq & Hq & Hok). cbn. destruct (decide (q = p)) as [->|Hne].
      - rewrite lookup_insert_eq. eexists. split; [reflexivity|].
        split; cbn; assumption.
      - rewrite lookup_insert_ne by congruence. eauto. }
    apply map_Forall_insert_2.
    - cbn. rewrite lookup_insert_eq. eexists. split; [reflexivity|].
      split; cbn; assumption.
    - intros k q Hk. apply Hat; [|exact (Hsw k q Hk)].
      destruct (Hsw k q Hk) as (sq & Hq & _). eauto. }
  destruct (sweep_pass_steady w1 now Hsw1) as (w2 & Hpass & Hst2 & _ & _).
  { intros j _. apply Hclock. }
  exists w1, w2, (size (store w1), size (filter (entry_expired w1 now) (store w1))).
  split; [exact Hsave|]. split; [exact Hpass|].
  rewrite Hst2.
  assert (Hentry : store w1 !! id s = Some p) by apply lookup_insert_eq.
  assert (Hexp : entry_expired w1 now (id s, p) ↔
                 clock w 0%nat + sessionValidSeconds < now).
  { unfold entry_expired. cbn. now rewrite lookup_insert_eq. }
  destruct (decide _) as [Hlt|Hge].
  - apply map_lookup_filter_None. right. intros q Hq Hnot.
    rewrite Hentry in Hq. injection Hq as <-. apply Hnot, Hexp, Hlt.
  - apply map_lookup_filter_Some. split; [exact Hentry|].
    intros Hyes. apply Hge, Hexp, Hyes.
Qed.

Lemma saved_session_kept_for_window_witness :
  ∃ w1 w2 r,
    memoryStore_Save bare_request 1%positive (ticking_world 2440) = (Ok true, w1) ∧
    sweep_pass w1 = (Ok r, w2) ∧
    store w2 !! "a" = Some 1%positive.
Proof.
  apply (saved_session_kept_for_window (ticking_world 2440) bare_request
           1%positive (mkSession ∅ "a" 100) 2440).
  - apply map_Forall_empty.
  - reflexivity.
  - cbn. lia.
  - cbn. unfold sessionValidSeconds. lia.
  - intros j. reflexivity.
Defined.

Example saved_at_1000_kept_at_2440 :
  let w1 := snd (memoryStore_Save bare_request 1%positive (ticking_world 2440)) in
  fst (sweep_pass w1) = Ok (1%nat, 0%nat).
Proof. vm_compute. reflexivity. Qed.

Example saved_at_1000_gone_at_2441 :
  let w1 := snd (memoryStore_Save bare_request 1%positive (ticking_world 2441)) in
  fst (sweep_pass w1) = Ok (1%nat, 1%nat).
Proof. vm_compute. reflexivity. Qed.

(** ** An invariant of the store *)

Lemma snd_void {A} (m : M A) (w : World) : snd (void m w) = snd (m w).
Proof. unfold void, bind, pure. destruct (m w) as [[a|msg] w']; reflexivity. Qed.

Lemma exec_store (o : op) (w : World) :
  match o with
  | OpSave _ q =>
      store (snd (exec o w)) =
        match sessions w !! q with
        | Some sq => <[id sq := q]> (store w)
        | None => store w
        end
  | _ => store (snd (exec o w)) ⊆ store w
  end.
Proof.
  destruct o as [req|req q| |req key ret|req key v]; cbn [exec].
  - rewrite snd_void. run_monad.
    destruct (store w !! _); reflexivity.
  - rewrite snd_void. run_monad. cbn.
    destruct (sessions w !! q); reflexivity.
  - rewrite snd_void. apply sweep_pass_store_subseteq.
  - now rewrite session_Get_store.
  - now rewrite snd_void, session_Set_store.
Qed.

Lemma exec_keeps_keyed (o : op) (w : World) :
  overwrites_session o = false →
  store_keyed w → store_keyed (snd (exec o w)).
Proof.
  intros Hover Hinv.
  assert (Hold : ∀ k p, store w !! k = Some p →
                        ∃ s', sessions (snd (exec o w)) !! p = Some s' ∧ id s' = k).
  { intros k p Hk. destruct (Hinv k p Hk) as (s & Hs & Hid).
    destruct (exec_keeps o w p s Hover Hs) as (s' & Hs' & Hid' & _).
    exists s'. split; [exact Hs' | congruence]. }
  pose proof (exec_store o w) as Hst.
  destruct o as [req|req q| |req key ret|req key v];
    try (intros k p Hk; apply Hold;
         exact (lookup_weaken _ _ _ _ Hk Hst)).
  unfold store_keyed. rewrite Hst. destruct (sessions w !! q) as [sq|] eqn:Hq.
  - apply map_Forall_insert_2; [|exact Hold].
    destruct (exec_keeps (OpSave req q) w q sq eq_refl Hq) as (s' & Hs' & Hid' & _).
    exists s'. split; [exact Hs' | exact Hid'].
  - exact Hold.
Qed.

(** X18.  If every entry of the store sits under the identifier of the
    session it points at, it still does after any sequence of [Load],
    [Save], sweep passes, [Get] and [Set] in which no [Get] has a pointer
    to a [Session] as its destination: such a sequence never brings the
    store to hold a session under a key other than its identifier, or a
    pointer at nothing. *)
Theorem store_stays_keyed (os : list op) (w : World) :
  forallb (λ o, negb (overwrites_session o)) os = true →
  store_keyed w → store_keyed (run os w).
Proof.
  revert w. induction os as [|o os IH]; intros w Hno Hinv; [exact Hinv|].
  cbn [forallb] in Hno. apply andb_prop in Hno as [Ho Hno].
  apply negb_true_iff in Ho.
  cbn [run]. apply IH; [exact Hno|]. now apply exec_keeps_keyed.
Qed.

Lemma one_session_world_keyed : store_keyed one_session_world.
Proof.
  intros k p Hk. cbn in Hk. apply lookup_singleton_Some in Hk as [<- <-].
  eexists. split; reflexivity.
Qed.

Lemma store_stays_keyed_witness : store_keyed (run two_requests one_session_world).
Proof.
  apply (store_stays_keyed two_requests one_session_world).
  - reflexivity.
  - exact one_session_world_keyed.
Defined.

(** ** Identifiers and new sessions *)

(** X19.  The formatting loses nothing: two reads of the entropy device
    that fill the buffer differently give different identifiers. *)
Theorem uuid_distinct_buffers (bs1 bs2 : list Byte.byte) :
  read_buffer bs1 ≠ read_buffer bs2 →
  uuid_of (ReadBytes bs1) ≠ uuid_of (ReadBytes bs2).
Proof.
  intros Hne Heq. apply Hne. cbn [uuid_of] in Heq.
  apply (f_equal uuid_groups) in Heq.
  rewrite !uuid_groups_format in Heq.
  rewrite <- (read_buffer_slices (read_buffer bs1)),
          <- (read_buffer_slices (read_buffer bs2)).
  injection Heq as -> -> -> -> ->. reflexivity.
Qed.

Lemma uuid_distinct_buffers_witness :
  uuid_of (ReadBytes [Byte.x01]) ≠ uuid_of (ReadBytes [Byte.x02]).
Proof.
  apply (uuid_distinct_buffers [Byte.x01] [Byte.x02]).
  vm_compute. discriminate.
Defined.

Lemma Load_miss (w : World) (req : Request) :
  store w !! Values_Get (Cookie req) sessionCookieName = None →
  memoryStore_Load req w =
    (Ok (fresh (dom (sessions w))),
     set_sessions
       (<[fresh (dom (sessions w)) :=
            mkSession ∅ (uuid_of (urandom w 0%nat)) (clock w 0%nat)]> (sessions w))
       (set_clock (λ n, clock w (S n)) (set_urandom (λ n, urandom w (S n)) w))).
Proof. intros Hmiss. run_monad. now rewrite Hmiss. Qed.

(** X20.  Two requests in a row that find no entry each get a session
    object of their own: [Load] returns two different pointers, both
    sessions exist afterwards, and the store still has exactly the
    entries it had. *)
Theorem Load_twice_distinct (w : World) (req1 req2 : Request) :
  store w !! Values_Get (Cookie req1) sessionCookieName = None →
  store w !! Values_Get (Cookie req2) sessionCookieName = None →
  ∃ p1 w1 p2 w2,
    memoryStore_Load req1 w = (Ok p1, w1) ∧
    memoryStore_Load req2 w1 = (Ok p2, w2) ∧
    p1 ≠ p2 ∧
    is_Some (sessions w2 !! p1) ∧ is_Some (sessions w2 !! p2) ∧
    store w2 = store w.
Proof.
  intros Hm1 Hm2.
  eexists _, _, _, _. split; [exact (Load_miss w req1 Hm1)|].
  split; [apply Load_miss; exact Hm2|].
  cbn [sessions store set_sessions set_clock set_urandom].
  set (h1 := <[fresh (dom (sessions w)) := _]> (sessions w)).
  assert (Hin : fresh (dom (sessions w)) ∈ dom h1).
  { apply elem_of_dom. unfold h1. rewrite lookup_insert_eq. eauto. }
  assert (Hne : fresh (dom (sessions w)) ≠ fresh (dom h1)).
  { intros Heq. rewrite Heq in Hin at 1. exact (is_fresh _ Hin). }
  split; [exact Hne|].
  split.
  - rewrite lookup_insert_ne by congruence. now apply elem_of_dom.
  - split; [rewrite lookup_insert_eq; eauto | reflexivity].
Qed.

Lemma Load_twice_distinct_witness :
  ∃ p1 w1 p2 w2,
    memoryStore_Load bare_request one_session_world = (Ok p1, w1) ∧
    memoryStore_Load returning_request w1 = (Ok p2, w2) ∧
    p1 ≠ p2 ∧
    is_Some (sessions w2 !! p1) ∧ is_Some (sessions w2 !! p2) ∧
    store w2 = store one_session_world.
Proof.
  apply (Load_twice_distinct one_session_world bare_request returning_request);
    reflexivity.
Defined.

(** ** The middleware and the next request *)

Section NextRequest.

Variable NewCookie_String : string → string → string.
Variable down : Handler.

(** X21.  The session [ServeWeb] saves is found again through its
    identifier, the value of the cookie it sets: when the handler
    responds with a session in the slot, [ServeWeb] returns normally,
    and in the world it leaves [Load] for any request whose cookie value
    is that identifier returns the same session, which has the data the
    handler left and the time of the save. *)
Theorem ServeWeb_then_Load
    (w w1 w2 : World) (req req2 req' : Request) (sess p : loc) (s : Session)
    (status : Z) (header : gmap string (list string)) :
  memoryStore_Load req w = (Ok sess, w1) →
  down (mkRequest (Cookie req) (<["session" := VSession sess]> (Env req))) w1
    = (Ok (req2, Some (status, header)), w2) →
  Env req2 !! "session" = Some (VSession p) →
  sessions w2 !! p = Some s →
  Values_Get (Cookie req') sessionCookieName = id s →
  ∃ w3 header',
    ServeWeb NewCookie_String (SessionHandler memoryStore down) req w
      = (Ok (req2, Some (status, header')), w3) ∧
    memoryStore_Load req' w3 = (Ok p, w3) ∧
    sessions w3 !! p = Some (mkSession (data s) (id s) (clock w2 0%nat)).
Proof.
  intros Hload Hdown Hslot Hs Hcookie.
  rewrite (ServeWeb_responded NewCookie_String down
             w w1 w2 req req2 sess status header Hload Hdown).
  unfold respond_filter, env_session, SessionHandler.
  cbn [manager memoryStore Save]. rewrite Hslot.
  pose proof (memoryStore_Save_live w2 req2 p s Hs) as Hsave.
  eexists _, _. split.
  { unfold bind, pure, deref. rewrite Hsave. cbn [sessions set_store set_sessions].
    rewrite lookup_insert_eq. reflexivity. }
  split.
  - apply Load_hit. rewrite Hcookie. apply lookup_insert_eq.
  - apply lookup_insert_eq.
Qed.

End NextRequest.

Lemma ServeWeb_then_Load_witness :
  ∃ w3 header',
    ServeWeb plain_cookie (SessionHandler memoryStore counting_handler)
        bare_request one_session_world
      = (Ok (first_request, Some (200, header')), w3) ∧
    memoryStore_Load returning_request w3 = (Ok 2%positive, w3) ∧
    sessions w3 !! 2%positive =
      Some (mkSession {[ "hits" := VInt 1 ]}
              "00000000-0000-0000-0000-000000000000" 2000).
Proof.
  refine (ServeWeb_then_Load plain_cookie counting_handler
            one_session_world loaded_world handled_world
            bare_request first_request returning_request 2%positive 2%positive
            (mkSession {[ "hits" := VInt 1 ]}
               "00000000-0000-0000-0000-000000000000" 2000)
            200 ∅ _ _ _ _ _);
    vm_compute; reflexivity.
Defined.
